(** * Max-pooling-with-index operators: shape inference and forward kernel

    A shallow embedding of [paddle/operators/pool_with_index_op.cc]:
    [OutputSizeMaxPool], [MaxPoolWithIndexOp::InferShape] and
    [MaxPoolWithIndexOpGrad::InferShape], and of the forward kernel as the
    specification describes it, followed by the properties the specification
    states about them. *)

From stdpp Require Import base numbers option list strings gmap.

#[local] Open Scope Z_scope.

(** ** Outcomes of a C++ computation *)

(** A computation either returns, throws the exception raised by a failed
    [PADDLE_ENFORCE] (carrying the message given at the call site), or has
    undefined behaviour (signed overflow, division by zero, indexing a vector
    out of its bounds, reading a variable that does not exist). *)
Inductive outcome (A : Type) : Type :=
| Ok (a : A)
| EnforceNotMet (msg : string)
| Undefined.

Arguments Ok {A} a.
Arguments EnforceNotMet {A} msg.
Arguments Undefined {A}.

#[global] Instance outcome_ret : MRet outcome := fun A a => Ok a.

#[global] Instance outcome_bind : MBind outcome := fun A B f m =>
  match m with
  | Ok a => f a
  | EnforceNotMet msg => EnforceNotMet msg
  | Undefined => Undefined
  end.

(** ** The C++ type [int] *)

Module Int.

Definition min_value : Z := - 2 ^ 31.
Definition max_value : Z := 2 ^ 31 - 1.

Definition in_range (z : Z) : bool := (min_value <=? z) && (z <=? max_value).

(** [static_cast<int>] of an [int64_t], and the implicit conversion of an
    [int64_t] argument to an [int] parameter: the value modulo [2^32],
    taken in the signed range. *)
Definition static_cast (z : Z) : Z := (z + 2 ^ 31) `mod` 2 ^ 32 - 2 ^ 31.

(** Signed arithmetic: a result that [int] cannot represent is undefined
    behaviour, and so is a division by zero. *)
Definition checked (z : Z) : outcome Z :=
  if in_range z then Ok z else Undefined.

Definition add (a b : Z) : outcome Z := checked (a + b).
Definition sub (a b : Z) : outcome Z := checked (a - b).
Definition mul (a b : Z) : outcome Z := checked (a * b).
Definition div (a b : Z) : outcome Z :=
  if b =? 0 then Undefined else checked (a ÷ b).

End Int.

(** ** [std::vector] and [DDim] accesses *)

(** [v[i]] read and [v[i] = x] write. A [std::vector] does not check the
    index; [in_x_dims[i]] is only ever used below the rank. *)
Definition vec_get (v : list Z) (i : nat) : outcome Z :=
  match v !! i with
  | Some x => Ok x
  | None => Undefined
  end.

Definition vec_set (v : list Z) (i : nat) (x : Z) : outcome (list Z) :=
  if decide (i < length v)%nat then Ok (<[i := x]> v) else Undefined.

(** [v.resize(n)]: keeps the first [n] elements, or appends zeros. *)
Definition vec_resize (v : list Z) (n : nat) : list Z := resize n 0 v.

(** [size_t] is 64 bits wide; its subtraction wraps around. *)
Definition size_t_sub (a b : nat) : Z := (Z.of_nat a - Z.of_nat b) `mod` 2 ^ 64.

(** [for (size_t i = first; i < first + count; ++i) body], threading the
    variables the body updates. *)
Fixpoint for_loop {St} (body : nat → St → outcome St) (first count : nat)
    (s : St) : outcome St :=
  match count with
  | O => Ok s
  | S count' => s' ← body first s; for_loop body (S first) count' s'
  end.

(** ** [OutputSizeMaxPool] *)

Definition OutputSizeMaxPool (input_size filter_size padding stride : Z)
  : outcome Z :=
  a ← Int.sub input_size filter_size;
  b ← Int.mul 2 padding;
  c ← Int.add a b;
  q ← Int.div c stride;
  output_size ← Int.add q 1;
  mret output_size.

(** ** The shape-inference context *)

(** The attributes the two operator makers declare. *)
Record AttributeMap : Type := {
  ksize : list Z;
  globalPooling : bool;
  strides : list Z;
  paddings : list Z;
}.

(** What shape inference did with dimensions, oldest event first. *)
Inductive event : Type :=
| EvGetInputDim (name : string)
| EvSetOutputDim (name : string) (dim : list Z).

(** The variables an operator is wired to, by name, each with its current
    dimensions; a name that is absent from a map is a missing reference. *)
Record InferShapeContext : Type := {
  input_vars : gmap string (list Z);
  output_vars : gmap string (list Z);
  Attrs : AttributeMap;
  trace : list event;
}.

(** Shape inference runs in a state-and-exception monad over the context; a
    failed run keeps the context as it was when it failed. *)
Definition InferShapeM (A : Type) : Type :=
  InferShapeContext → outcome A * InferShapeContext.

#[global] Instance InferShapeM_ret : MRet InferShapeM := fun A a ctx => (Ok a, ctx).

#[global] Instance InferShapeM_bind : MBind InferShapeM := fun A B f m ctx =>
  match m ctx with
  | (Ok a, ctx') => f a ctx'
  | (EnforceNotMet msg, ctx') => (EnforceNotMet msg, ctx')
  | (Undefined, ctx') => (Undefined, ctx')
  end.

Definition lift {A} (o : outcome A) : InferShapeM A := fun ctx => (o, ctx).

Definition PADDLE_ENFORCE (cond : bool) (msg : string) : InferShapeM () :=
  fun ctx => (if cond then Ok () else EnforceNotMet msg, ctx).

Definition HasInput (name : string) : InferShapeM bool :=
  fun ctx => (Ok (bool_decide (is_Some (input_vars ctx !! name))), ctx).

Definition HasOutput (name : string) : InferShapeM bool :=
  fun ctx => (Ok (bool_decide (is_Some (output_vars ctx !! name))), ctx).

Definition log (e : event) (ctx : InferShapeContext) : InferShapeContext :=
  {| input_vars := input_vars ctx; output_vars := output_vars ctx;
     Attrs := Attrs ctx; trace := trace ctx ++ [e] |}.

Definition GetInputDim (name : string) : InferShapeM (list Z) :=
  fun ctx =>
    match input_vars ctx !! name with
    | Some dim => (Ok dim, log (EvGetInputDim name) ctx)
    | None => (Undefined, ctx)
    end.

Definition SetOutputDim (name : string) (dim : list Z) : InferShapeM () :=
  fun ctx =>
    match output_vars ctx !! name with
    | Some _ =>
        (Ok (),
         {| input_vars := input_vars ctx;
            output_vars := <[name := dim]> (output_vars ctx);
            Attrs := Attrs ctx;
            trace := trace ctx ++ [EvSetOutputDim name dim] |})
    | None => (Undefined, ctx)
    end.

Definition GetAttr {A} (field : AttributeMap → A) : InferShapeM A :=
  fun ctx => (Ok (field (Attrs ctx)), ctx).

Definition GradVarName (name : string) : string := name +:+ "@GRAD".

(** ** [MaxPoolWithIndexOp] *)

Module MaxPoolWithIndexOp.

(** One turn of the loop under [if (globalPooling)]. *)
Definition global_step (in_x_dims : list Z) (i : nat)
    (vs : list Z * list Z) : outcome (list Z * list Z) :=
  let '(ksize, paddings) := vs in
  paddings ← vec_set paddings i 0;
  d ← vec_get in_x_dims (i + 2);
  ksize ← vec_set ksize i (Int.static_cast d);
  mret (ksize, paddings).

(** The block [if (globalPooling) { ... }] on the local copies [ksize],
    [strides] and [paddings] of the attributes; it returns the three
    vectors as they stand after the block. The block runs after the rank
    check, so [in_x_dims.size() - 2] does not wrap around. *)
Definition GlobalPoolingAdjustment (in_x_dims : list Z) (global : bool)
    (ksize strides paddings : list Z) : outcome (list Z * list Z * list Z) :=
  if global then
    let ksize := vec_resize ksize (length in_x_dims - 2) in
    '(ksize, paddings) ←
      for_loop (global_step in_x_dims) 0 (length ksize) (ksize, paddings);
    mret (ksize, strides, paddings)
  else Ok (ksize, strides, paddings).

(** One turn of the loop that fills [output_shape]. *)
Definition output_step (in_x_dims ksize paddings strides : list Z) (i : nat)
    (output_shape : list Z) : outcome (list Z) :=
  d ← vec_get in_x_dims (i + 2);
  k ← vec_get ksize i;
  p ← vec_get paddings i;
  s ← vec_get strides i;
  o ← OutputSizeMaxPool (Int.static_cast d) k p s;
  mret (output_shape ++ [o]).

Definition InferShape : InferShapeM () :=
  b ← HasInput "X";
  PADDLE_ENFORCE b "X(Input) of Pooling should not be null.";;
  b ← HasOutput "Out";
  PADDLE_ENFORCE b "Out(Output) of Pooling should not be null.";;
  b ← HasOutput "Mask";
  PADDLE_ENFORCE b "Mask(Output) of Pooling should not be null.";;
  in_x_dims ← GetInputDim "X";
  ksize ← GetAttr ksize;
  strides ← GetAttr strides;
  paddings ← GetAttr paddings;
  PADDLE_ENFORCE
    (bool_decide (length in_x_dims = 4%nat) || bool_decide (length in_x_dims = 5%nat))
    "Pooling intput should be 4-D or 5-D tensor.";;
  global ← GetAttr globalPooling;
  '(ksize, strides, paddings) ←
    lift (GlobalPoolingAdjustment in_x_dims global ksize strides paddings);
  PADDLE_ENFORCE (size_t_sub (length in_x_dims) (length ksize) =? 2)
    "Input size and pooling size should be consistent.";;
  PADDLE_ENFORCE (bool_decide (length ksize = length strides))
    "Strides size and pooling size should be the same.";;
  PADDLE_ENFORCE (bool_decide (length ksize = length paddings))
    "Paddings size and pooling size should be the same.";;
  n ← lift (vec_get in_x_dims 0);
  c ← lift (vec_get in_x_dims 1);
  output_shape ←
    lift (for_loop (output_step in_x_dims ksize paddings strides) 0
            (length ksize) [n; c]);
  SetOutputDim "Out" output_shape;;
  SetOutputDim "Mask" output_shape.

End MaxPoolWithIndexOp.

(** ** [MaxPoolWithIndexOpGrad] *)

Module MaxPoolWithIndexOpGrad.

Definition InferShape : InferShapeM () :=
  b ← HasInput "Mask";
  PADDLE_ENFORCE b "Input(Mask) must not be null.";;
  b ← HasInput "X";
  PADDLE_ENFORCE b "Input(X) must not be null.";;
  b ← HasOutput (GradVarName "X");
  PADDLE_ENFORCE b "Input(X@GRAD) should not be null.";;
  dim ← GetInputDim "X";
  SetOutputDim (GradVarName "X") dim.

End MaxPoolWithIndexOpGrad.

(** ** Arithmetic side conditions *)

(** Every intermediate value of the body of [OutputSizeMaxPool] is
    representable in [int] and the divisor is not zero. *)
Definition no_overflow (input_size filter_size padding stride : Z) : bool :=
  Int.in_range (input_size - filter_size)
  && Int.in_range (2 * padding)
  && Int.in_range (input_size - filter_size + 2 * padding)
  && negb (stride =? 0)
  && Int.in_range ((input_size - filter_size + 2 * padding) ÷ stride)
  && Int.in_range ((input_size - filter_size + 2 * padding) ÷ stride + 1).

(** The spatial axes of a pooling: input extent, window, padding, stride. *)
Definition axes (spatial ksize paddings strides : list Z) : list (Z * Z * Z * Z) :=
  zip (zip (zip spatial ksize) paddings) strides.

Definition axis_defined (a : Z * Z * Z * Z) : bool :=
  let '(d, k, p, s) := a in Int.in_range d && no_overflow d k p s.

(** The shape law as the specification writes it: truncating division. *)
Definition spec_outDim (a : Z * Z * Z * Z) : Z :=
  let '(inDim, windowSize, padding, stride) := a in
  (inDim - windowSize + 2 * padding) ÷ stride + 1.

(** ** The forward kernel *)

(** [MaxPoolWithIndexKernel], which the file registers for both operators, is
    declared in [pool_with_index_op.h]; what it computes is taken here from
    section 4.3 of the specification. *)
Module ForwardKernel.

(** Modelled from the spec: the dense N-dimensional array of sections 3 and
    9, which the tensor library of the repository provides: a shape and the
    elements in row-major order, read by linear offset. The numeric element
    type is taken to be the integers with their order. *)
Record Tensor : Type := {
  shape : list Z;
  elements : list Z;
}.

(** Modelled from the spec: the PoolingConfig of section 3. *)
Record PoolingConfig : Type := {
  windowSize : list Z;
  stride : list Z;
  padding : list Z;
  globalPooling : bool;
}.

(** Modelled from the spec: the number of elements of an array with the
    given extents (the range of the Mask is [0, product of the input's
    spatial extents)). *)
Definition product (dims : list Z) : Z := foldr Z.mul 1 dims.

(** Modelled from the spec: the row-major offset of step 5,
    [(d*H + h)*W + w] on three axes and [h*W + w] on two. *)
Definition flat_offset (dims coord : list Z) : Z :=
  foldl (λ acc '(extent, x), acc * extent + x) 0 (zip dims coord).

(** Modelled from the spec: the decoding of a flat offset back to a
    coordinate, the inverse of [flat_offset]. *)
Fixpoint decode (dims : list Z) (idx : Z) : list Z :=
  match dims with
  | [] => []
  | _ :: inner => idx `div` product inner :: decode inner (idx `mod` product inner)
  end.

(** Modelled from the spec: element access [T[n, c, x...]]. *)
Definition get (T : Tensor) (coord : list Z) : Z :=
  default 0 (elements T !! Z.to_nat (flat_offset (shape T) coord)).

(** Modelled from the spec: step 1, where the window starts on one axis. *)
Definition window_start (o s p : Z) : Z := o * s - p.

(** Modelled from the spec: step 2, the window [start, start + k) of one axis
    intersected with the input range [0, inDim), in ascending order. *)
Definition valid_range (inDim start k : Z) : list Z :=
  seqZ (Z.max start 0) (Z.min (start + k) inDim - Z.max start 0).

(** Modelled from the spec: the clipped window of every spatial axis for the
    output coordinate [o]. *)
Definition window_ranges (inDims o : list Z) (cfg : PoolingConfig)
  : list (list Z) :=
  (λ '(d, (x, (k, (s, p)))), valid_range d (window_start x s p) k)
    <$> zip inDims (zip o (zip (windowSize cfg) (zip (stride cfg) (padding cfg)))).

(** Modelled from the spec: the scan order of step 3, outer axis slowest,
    every axis ascending. *)
Fixpoint positions (ranges : list (list Z)) : list (list Z) :=
  match ranges with
  | [] => [[]]
  | r :: rs => x ← r; (λ pos, x :: pos) <$> positions rs
  end.

(** Modelled from the spec: step 3, the running maximum with its position;
    a later element replaces it only when it is strictly greater. *)
Definition scan_step (value : list Z → Z) (best : option (Z * list Z))
    (pos : list Z) : option (Z * list Z) :=
  match best with
  | None => Some (value pos, pos)
  | Some (v, _) => if bool_decide (v < value pos) then Some (value pos, pos) else best
  end.

(** Modelled from the spec: step 3 over the whole window; there is no
    maximum when the window is empty. *)
Definition scan (value : list Z → Z) (ps : list (list Z)) : option (Z * list Z) :=
  foldl (scan_step value) None ps.

(** Modelled from the spec: steps 1 to 5 for one output element: the value
    for [Out[n,c,o]] and the index for [Mask[n,c,o]]; an empty window is a
    configuration error. *)
Definition pool_at (X : Tensor) (cfg : PoolingConfig) (n c : Z) (o : list Z)
  : outcome (Z * Z) :=
  let inDims := drop 2 (shape X) in
  match scan (λ pos, get X (n :: c :: pos)) (positions (window_ranges inDims o cfg)) with
  | None => EnforceNotMet "pooling window entirely out of range"
  | Some (v, pos) => Ok (v, flat_offset inDims pos)
  end.

(** Modelled from the spec: a coordinate that lies inside an array of the
    given extents. *)
Definition in_bounds (dims coord : list Z) : Prop :=
  Forall2 (λ extent x, 0 <= x < extent) dims coord.

(** Modelled from the spec: every coordinate of a dense array, in row-major
    order. *)
Definition coords (dims : list Z) : list (list Z) :=
  positions (seqZ 0 <$> dims).

(** The results of a sequence of computations, or the first failure. *)
Fixpoint collect {A} (l : list (outcome A)) : outcome (list A) :=
  match l with
  | [] => Ok []
  | o :: l => a ← o; rest ← collect l; mret (a :: rest)
  end.

(** Modelled from the spec: the forward kernel, filling [Out] and [Mask],
    both of shape (batch, channels, outDim...), for every batch index,
    channel and output coordinate. *)
Definition ForwardKernel (X : Tensor) (cfg : PoolingConfig) (outDims : list Z)
  : outcome (Tensor * Tensor) :=
  let out_shape := take 2 (shape X) ++ outDims in
  cells ←
    collect ((λ coord,
                match coord with
                | n :: c :: o => pool_at X cfg n c o
                | _ => Undefined
                end) <$> coords out_shape);
  mret ({| shape := out_shape; elements := cells.*1 |},
        {| shape := out_shape; elements := cells.*2 |}).

End ForwardKernel.

(** ** The forward shape as a function of what is read *)

(** [PADDLE_ENFORCE] where no context is at hand. *)
Definition enforce (cond : bool) (msg : string) : outcome () :=
  if cond then Ok () else EnforceNotMet msg.

(** What [MaxPoolWithIndexOp::InferShape] does between reading the
    dimensions of [X] and setting those of [Out] and [Mask]: the rank check,
    the global-pooling block, the three size checks and the loop that fills
    [output_shape], as a function of the dimensions and the attributes. *)
Definition infer_output_shape (in_x_dims : list Z) (a : AttributeMap)
  : outcome (list Z) :=
  enforce
    (bool_decide (length in_x_dims = 4%nat) || bool_decide (length in_x_dims = 5%nat))
    "Pooling intput should be 4-D or 5-D tensor.";;
  '(ksize, strides, paddings) ←
    MaxPoolWithIndexOp.GlobalPoolingAdjustment in_x_dims (globalPooling a)
      (ksize a) (strides a) (paddings a);
  enforce (size_t_sub (length in_x_dims) (length ksize) =? 2)
    "Input size and pooling size should be consistent.";;
  enforce (bool_decide (length ksize = length strides))
    "Strides size and pooling size should be the same.";;
  enforce (bool_decide (length ksize = length paddings))
    "Paddings size and pooling size should be the same.";;
  n ← vec_get in_x_dims 0;
  c ← vec_get in_x_dims 1;
  for_loop (MaxPoolWithIndexOp.output_step in_x_dims ksize paddings strides) 0
    (length ksize) [n; c].

(** The context after a run that read the dimensions of [X] and set [shape]
    on [Out] and on [Mask]. *)
Definition set_output_dims (shape : list Z) (ctx : InferShapeContext)
  : InferShapeContext :=
  {| input_vars := input_vars ctx;
     output_vars := <["Mask" := shape]> (<["Out" := shape]> (output_vars ctx));
     Attrs := Attrs ctx;
     trace := trace ctx ++ [EvGetInputDim "X"; EvSetOutputDim "Out" shape;
                            EvSetOutputDim "Mask" shape] |}.


(** Two inputs of the same rank whose spatial extents agree once converted
    to [int]. *)
Definition same_spatial_as_int (dims1 dims2 : list Z) : Prop :=
  length dims1 = length dims2
  ∧ Int.static_cast <$> drop 2 dims1 = Int.static_cast <$> drop 2 dims2.

(** ** The operator makers *)

(** [MaxPool2dWithIndexOpMaker]: [ksize] has no default, [globalPooling]
    defaults to false, [strides] to {1, 1} and [paddings] to {0, 0}. An
    attribute that the caller gives keeps its value; one that is left out
    takes its default. *)
Module MaxPool2dWithIndexOpMaker.

(** The variables the maker declares with [AddInput] and [AddOutput]. *)
Definition inputs : list string := ["X"].
Definition outputs : list string := ["Out"; "Mask"].

Definition default_globalPooling : bool := false.
Definition default_strides : list Z := [1; 1].
Definition default_paddings : list Z := [0; 0].

Definition attrs (ksize : list Z) (globalPooling : option bool)
    (strides paddings : option (list Z)) : AttributeMap :=
  {| ksize := ksize;
     globalPooling := default default_globalPooling globalPooling;
     strides := default default_strides strides;
     paddings := default default_paddings paddings |}.

End MaxPool2dWithIndexOpMaker.

(** [MaxPool3dWithIndexOpMaker]: the same with {1, 1, 1} and {0, 0, 0}. *)
Module MaxPool3dWithIndexOpMaker.

Definition inputs : list string := ["X"].
Definition outputs : list string := ["Out"; "Mask"].

Definition default_globalPooling : bool := false.
Definition default_strides : list Z := [1; 1; 1].
Definition default_paddings : list Z := [0; 0; 0].

Definition attrs (ksize : list Z) (globalPooling : option bool)
    (strides paddings : option (list Z)) : AttributeMap :=
  {| ksize := ksize;
     globalPooling := default default_globalPooling globalPooling;
     strides := default default_strides strides;
     paddings := default default_paddings paddings |}.

End MaxPool3dWithIndexOpMaker.

(** ** Contexts used as examples *)

(** A forward operator wired to an input [X] of the given dimensions and to
    outputs [Out] and [Mask] that have no dimensions yet. *)
Definition forward_ctx (x_dims : list Z) (a : AttributeMap) : InferShapeContext :=
  {| input_vars := {[ "X" := x_dims ]};
     output_vars := {[ "Out" := []; "Mask" := [] ]};
     Attrs := a;
     trace := [] |}.

Definition pool_attrs (global : bool) (ksize strides paddings : list Z) : AttributeMap :=
  {| ksize := ksize; globalPooling := global; strides := strides;
     paddings := paddings |}.

(** A gradient operator wired to the inputs [Mask], [X] and [Out@GRAD] of
    the given dimensions and to an output [X@GRAD] without dimensions yet. *)
Definition grad_ctx (mask_dims x_dims dout_dims : list Z) : InferShapeContext :=
  {| input_vars := {[ "Mask" := mask_dims; "X" := x_dims; "Out@GRAD" := dout_dims ]};
     output_vars := {[ "X@GRAD" := [] ]};
     Attrs := pool_attrs false [2; 2] [2; 2] [0; 0];
     trace := [] |}.

(** The scenario of the specification: a 4x4 grid pooled by 2x2 windows with
    stride 2; the lower left window holds its maximum three times. *)
Definition grid_4x4 : ForwardKernel.Tensor :=
  {| ForwardKernel.shape := [1; 1; 4; 4];
     ForwardKernel.elements := [1; 2; 3; 4;
                                5; 6; 6; 8;
                                9; 9; 3; 1;
                                9; 2; 1; 3] |}.

Definition pool_2x2 : ForwardKernel.PoolingConfig :=
  {| ForwardKernel.windowSize := [2; 2];
     ForwardKernel.stride := [2; 2];
     ForwardKernel.padding := [0; 0];
     ForwardKernel.globalPooling := false |}.

(** * Properties *)

Section IntFacts.

Lemma in_range_bounds z :
  Int.in_range z = true ↔ - 2 ^ 31 <= z <= 2 ^ 31 - 1.
Proof.
  unfold Int.in_range, Int.min_value, Int.max_value.
  rewrite andb_true_iff, !Z.leb_le. tauto.
Qed.

Lemma static_cast_in_range z : Int.in_range z = true → Int.static_cast z = z.
Proof.
  rewrite in_range_bounds. intros Hz. unfold Int.static_cast.
  rewrite Z.mod_small; lia.
Qed.

Lemma checked_in_range z : Int.in_range z = true → Int.checked z = Ok z.
Proof. unfold Int.checked. by intros ->. Qed.

Lemma OutputSizeMaxPool_defined d k p s :
  no_overflow d k p s = true →
  OutputSizeMaxPool d k p s = Ok ((d - k + 2 * p) ÷ s + 1).
Proof.
  unfold no_overflow. rewrite !andb_true_iff, negb_true_iff.
  intros [[[[[H1 H2] H3] H4] H5] H6].
  unfold OutputSizeMaxPool, Int.sub, Int.mul, Int.add, Int.div.
  rewrite (checked_in_range _ H1). cbn.
  rewrite (checked_in_range _ H2). cbn.
  rewrite (checked_in_range _ H3). cbn.
  rewrite H4, (checked_in_range _ H5). cbn.
  by rewrite (checked_in_range _ H6).
Qed.

End IntFacts.

Section Loops.

Context {St : Type} (body : nat → St → outcome St).

Lemma for_loop_snoc first count s :
  for_loop body first (S count) s
  = (s' ← for_loop body first count s; body (first + count)%nat s').
Proof.
  revert first s. induction count as [|count IH]; intros first s.
  - cbn. replace (first + 0)%nat with first by lia.
    by destruct (body first s).
  - change (for_loop body first (S (S count)) s)
      with (s' ← body first s; for_loop body (S first) (S count) s').
    destruct (body first s) as [s1| |] eqn:Hb; cbn; rewrite ?Hb; cbn; try done.
    rewrite <- Nat.add_succ_comm. apply IH.
Qed.

Lemma for_loop_add a b s :
  for_loop body 0 (a + b) s = (s' ← for_loop body 0 a s; for_loop body a b s').
Proof.
  revert a s. induction b as [|b IH]; intros a s.
  - rewrite Nat.add_0_r. cbn. by destruct (for_loop body 0 a s).
  - replace (a + S b)%nat with (S a + b)%nat by lia.
    rewrite IH, for_loop_snoc. cbn.
    by destruct (for_loop body 0 a s).
Qed.

(** A loop whose body keeps an invariant and never fails runs to its end. *)
Lemma for_loop_invariant (I : nat → St → Prop) count s :
  I 0%nat s →
  (∀ i s, (i < count)%nat → I i s → ∃ s', body i s = Ok s' ∧ I (S i) s') →
  ∃ s', for_loop body 0 count s = Ok s' ∧ I count s'.
Proof.
  intros H0. induction count as [|count IH]; intros Hstep.
  - exists s. by split.
  - destruct IH as (s1 & Hrun & HI).
    { intros i s2 Hi. apply Hstep. lia. }
    destruct (Hstep count s1) as (s2 & Hb & HI2); [lia | done |].
    exists s2. split; [|done].
    rewrite for_loop_snoc, Hrun. cbn. done.
Qed.

End Loops.

Section VectorFacts.

Lemma vec_get_lookup v i x : v !! i = Some x → vec_get v i = Ok x.
Proof. unfold vec_get. by intros ->. Qed.

Lemma vec_set_lt v i x : (i < length v)%nat → vec_set v i x = Ok (<[i := x]> v).
Proof. unfold vec_set. intros Hi. by rewrite decide_True. Qed.

Lemma vec_set_ge v i x : (length v ≤ i)%nat → vec_set v i x = Undefined.
Proof. unfold vec_set. intros Hi. rewrite decide_False; [done | lia]. Qed.

Lemma length_vec_resize v n : length (vec_resize v n) = n.
Proof. apply length_resize. Qed.

(** Overwriting the first element that a left-to-right sweep has not
    reached yet. *)
Lemma insert_swept {A} (done_ todo : list A) i x :
  length done_ = i → (i < length todo)%nat →
  <[i := x]> (done_ ++ drop i todo) = (done_ ++ [x]) ++ drop (S i) todo.
Proof.
  intros Hlen Hi.
  destruct (lookup_lt_is_Some_2 todo i Hi) as [y Hy].
  rewrite (drop_S _ _ _ Hy), insert_app_r_alt by lia.
  replace (i - length done_)%nat with 0%nat by lia. cbn.
  by rewrite <- app_assoc.
Qed.

End VectorFacts.

Section GlobalPooling.

Import MaxPoolWithIndexOp.

(** With [globalPooling] set and a [paddings] vector that covers the spatial
    axes, the block replaces the window by the input's spatial extent and
    zeroes the leading paddings. *)
Lemma GlobalPoolingAdjustment_true in_x_dims ksize strides paddings :
  (2 ≤ length in_x_dims)%nat →
  (length in_x_dims - 2 ≤ length paddings)%nat →
  GlobalPoolingAdjustment in_x_dims true ksize strides paddings
  = Ok (Int.static_cast <$> drop 2 in_x_dims,
        strides,
        replicate (length in_x_dims - 2) 0 ++ drop (length in_x_dims - 2) paddings).
Proof.
  intros Hrank Hpad. unfold GlobalPoolingAdjustment.
  rewrite length_vec_resize.
  remember (length in_x_dims - 2)%nat as r eqn:Hr.
  set (k0 := vec_resize ksize r).
  assert (length k0 = r) as Hk0 by apply length_vec_resize.
  destruct (for_loop_invariant (global_step in_x_dims)
    (λ i '(k, p),
       k = (Int.static_cast <$> take i (drop 2 in_x_dims)) ++ drop i k0
       ∧ p = replicate i 0 ++ drop i paddings) r (k0, paddings))
    as ([k p] & Hrun & Hk & Hp).
  - done.
  - intros i [k p] Hi [-> ->].
    destruct (lookup_lt_is_Some_2 in_x_dims (i + 2)) as [d Hd]; [lia|].
    assert (drop 2 in_x_dims !! i = Some d) as Hd'.
    { rewrite lookup_drop. by rewrite Nat.add_comm. }
    eexists. split.
    + unfold global_step.
      rewrite vec_set_lt by (rewrite length_app, length_replicate, length_drop; lia).
      cbn. rewrite (vec_get_lookup _ _ _ Hd). cbn.
      rewrite vec_set_lt
        by (rewrite length_app, length_fmap, length_take, !length_drop; lia).
      cbn. done.
    + split.
      * rewrite insert_swept.
        -- by rewrite (take_S_r _ _ _ Hd'), fmap_app.
        -- rewrite length_fmap, length_take, length_drop. lia.
        -- lia.
      * rewrite insert_swept.
        -- by rewrite replicate_S_end.
        -- by rewrite length_replicate.
        -- lia.
  - rewrite Hrun, Hk, Hp. cbn. f_equal. f_equal. f_equal.
    rewrite take_ge by (rewrite length_drop; lia).
    rewrite (drop_ge k0) by lia. by rewrite app_nil_r.
Qed.

(** A [paddings] vector shorter than the number of spatial axes is written
    past its end. *)
Lemma GlobalPoolingAdjustment_short_paddings in_x_dims ksize strides paddings :
  (length paddings < length in_x_dims - 2)%nat →
  GlobalPoolingAdjustment in_x_dims true ksize strides paddings = Undefined.
Proof.
  intros Hpad. unfold GlobalPoolingAdjustment.
  rewrite length_vec_resize.
  remember (length in_x_dims - 2)%nat as r eqn:Hr.
  set (k0 := vec_resize ksize r).
  assert (length k0 = r) as Hk0 by apply length_vec_resize.
  set (n := length paddings) in *.
  destruct (for_loop_invariant (global_step in_x_dims)
    (λ i '(k, p), length k = r ∧ length p = n) n (k0, paddings))
    as ([k p] & Hrun & Hk & Hp).
  - done.
  - intros i [k p] Hi [Hk Hp].
    destruct (lookup_lt_is_Some_2 in_x_dims (i + 2)) as [d Hd]; [lia|].
    eexists. split.
    + unfold global_step. rewrite vec_set_lt by lia. cbn.
      rewrite (vec_get_lookup _ _ _ Hd). cbn.
      rewrite vec_set_lt by lia. cbn. done.
    + cbn. by rewrite !length_insert.
  - replace r with (n + S (r - n - 1))%nat by lia.
    rewrite for_loop_add, Hrun. cbn.
    unfold global_step. rewrite vec_set_ge by lia. done.
Qed.

End GlobalPooling.

Section ForwardShape.

Import MaxPoolWithIndexOp.

Lemma axes_lookup spatial k p s i d ki pi si :
  spatial !! i = Some d → k !! i = Some ki → p !! i = Some pi → s !! i = Some si →
  axes spatial k p s !! i = Some (d, ki, pi, si).
Proof.
  intros Hd Hk Hp Hs. unfold axes.
  rewrite !lookup_zip_with, Hd, Hk, Hp, Hs. done.
Qed.

Lemma length_axes spatial k p s :
  length k = length spatial → length p = length spatial → length s = length spatial →
  length (axes spatial k p s) = length spatial.
Proof. intros Hk Hp Hs. unfold axes. rewrite !length_zip. lia. Qed.

(** The loop that fills [output_shape] appends what [OutputSizeMaxPool]
    returns for every axis, as long as it is defined there. *)
Lemma output_loop_outs n c spatial k p s outs :
  length k = length spatial → length p = length spatial →
  length s = length spatial → length outs = length spatial →
  (∀ i d ki pi si o,
     spatial !! i = Some d → k !! i = Some ki → p !! i = Some pi →
     s !! i = Some si → outs !! i = Some o →
     OutputSizeMaxPool (Int.static_cast d) ki pi si = Ok o) →
  for_loop (output_step (n :: c :: spatial) k p s) 0 (length k) [n; c]
  = Ok (n :: c :: outs).
Proof.
  intros Hk Hp Hs Ho Hdef.
  destruct (for_loop_invariant (output_step (n :: c :: spatial) k p s)
    (λ i shape, shape = n :: c :: take i outs)
    (length k) [n; c]) as (shape & Hrun & ->).
  - done.
  - intros i shape Hi ->.
    destruct (lookup_lt_is_Some_2 spatial i) as [d Hd]; [lia|].
    destruct (lookup_lt_is_Some_2 k i) as [ki Hki]; [lia|].
    destruct (lookup_lt_is_Some_2 p i) as [pi Hpi]; [lia|].
    destruct (lookup_lt_is_Some_2 s i) as [si Hsi]; [lia|].
    destruct (lookup_lt_is_Some_2 outs i) as [o Hoi]; [lia|].
    eexists. split.
    + unfold output_step.
      rewrite (vec_get_lookup (n :: c :: spatial) (i + 2) d)
        by (by rewrite Nat.add_comm).
      cbn. rewrite (vec_get_lookup _ _ _ Hki). cbn.
      rewrite (vec_get_lookup _ _ _ Hpi). cbn.
      rewrite (vec_get_lookup _ _ _ Hsi). cbn.
      rewrite (Hdef _ _ _ _ _ _ Hd Hki Hpi Hsi Hoi). cbn. done.
    + by rewrite (take_S_r _ _ _ Hoi).
  - rewrite Hrun. rewrite take_ge; [done | lia].
Qed.

(** On axes where the arithmetic is defined it appends the shape law. *)
Lemma output_loop n c spatial k p s :
  length k = length spatial → length p = length spatial → length s = length spatial →
  forallb axis_defined (axes spatial k p s) = true →
  for_loop (output_step (n :: c :: spatial) k p s) 0 (length k) [n; c]
  = Ok (n :: c :: (spec_outDim <$> axes spatial k p s)).
Proof.
  intros Hk Hp Hs Hdef.
  assert (Forall (λ a, axis_defined a = true) (axes spatial k p s)) as Hall.
  { apply Forall_forall. intros a Ha. rewrite forallb_forall in Hdef.
    apply Hdef. by apply list_elem_of_In. }
  apply output_loop_outs; try done.
  - by rewrite length_fmap, length_axes.
  - intros i d ki pi si o Hd Hki Hpi Hsi Ho.
    pose proof (axes_lookup _ _ _ _ _ _ _ _ _ Hd Hki Hpi Hsi) as Ha.
    pose proof (Forall_lookup_1 _ _ _ _ Hall Ha) as Hax.
    cbn in Hax. apply andb_true_iff in Hax as [Hfit Hno].
    rewrite list_lookup_fmap, Ha in Ho. cbn in Ho. injection Ho as <-.
    rewrite (static_cast_in_range _ Hfit).
    by apply OutputSizeMaxPool_defined.
Qed.

(** A window as large as the input and no padding give one output element,
    whatever the non-zero stride. *)
Lemma OutputSizeMaxPool_global d s :
  s ≠ 0 → OutputSizeMaxPool (Int.static_cast d) (Int.static_cast d) 0 s = Ok 1.
Proof.
  intros Hs. unfold OutputSizeMaxPool, Int.sub, Int.mul, Int.add, Int.div.
  rewrite Z.sub_diag.
  destruct s as [|q|q]; [done | reflexivity | reflexivity].
Qed.

Lemma InferShape_success ctx n c spatial k' s' p' shape :
  input_vars ctx !! "X" = Some (n :: c :: spatial) →
  is_Some (output_vars ctx !! "Out") →
  is_Some (output_vars ctx !! "Mask") →
  (length spatial = 2 ∨ length spatial = 3)%nat →
  GlobalPoolingAdjustment (n :: c :: spatial) (globalPooling (Attrs ctx))
    (ksize (Attrs ctx)) (strides (Attrs ctx)) (paddings (Attrs ctx))
  = Ok (k', s', p') →
  length k' = length spatial →
  length s' = length spatial →
  length p' = length spatial →
  for_loop (output_step (n :: c :: spatial) k' p' s') 0 (length k') [n; c]
  = Ok shape →
  InferShape ctx
  = (Ok (),
     {| input_vars := input_vars ctx;
        output_vars := <["Mask" := shape]> (<["Out" := shape]> (output_vars ctx));
        Attrs := Attrs ctx;
        trace := trace ctx ++ [EvGetInputDim "X"; EvSetOutputDim "Out" shape;
                               EvSetOutputDim "Mask" shape] |}).
Proof.
  intros HX HOut HMask Hrank Hadj Hk Hs Hp Hloop.
  unfold InferShape.
  cbv [mbind InferShapeM_bind HasInput HasOutput PADDLE_ENFORCE GetInputDim
       GetAttr lift SetOutputDim].
  rewrite !bool_decide_eq_true_2 by eauto.
  rewrite HX. cbn [log Attrs].
  assert (bool_decide (length (n :: c :: spatial) = 4%nat)
          || bool_decide (length (n :: c :: spatial) = 5%nat) = true) as ->.
  { cbn [length]. destruct Hrank as [-> | ->]; done. }
  rewrite Hadj.
  assert ((size_t_sub (length (n :: c :: spatial)) (length k') =? 2) = true) as ->.
  { apply Z.eqb_eq. unfold size_t_sub. cbn [length]. rewrite Hk.
    rewrite Z.mod_small; lia. }
  rewrite !bool_decide_eq_true_2 by congruence.
  rewrite (vec_get_lookup (n :: c :: spatial) 0 n) by done.
  rewrite (vec_get_lookup (n :: c :: spatial) 1 c) by done.
  rewrite Hloop. unfold log. cbn [output_vars input_vars Attrs trace].
  destruct HOut as [out ->]. cbn [output_vars input_vars Attrs trace].
  rewrite lookup_insert_ne by done.
  destruct HMask as [mask ->].
  by rewrite <- !app_assoc.
Qed.

(** Under global pooling every axis pools to one element: the run of
    shape inference, in full. *)
Lemma InferShape_global_run ctx n c spatial :
  input_vars ctx !! "X" = Some (n :: c :: spatial) →
  is_Some (output_vars ctx !! "Out") →
  is_Some (output_vars ctx !! "Mask") →
  (length spatial = 2 ∨ length spatial = 3)%nat →
  globalPooling (Attrs ctx) = true →
  length (strides (Attrs ctx)) = length spatial →
  length (paddings (Attrs ctx)) = length spatial →
  Forall (λ s, s ≠ 0) (strides (Attrs ctx)) →
  let shape := n :: c :: replicate (length spatial) 1 in
  InferShape ctx
  = (Ok (),
     {| input_vars := input_vars ctx;
        output_vars := <["Mask" := shape]> (<["Out" := shape]> (output_vars ctx));
        Attrs := Attrs ctx;
        trace := trace ctx ++ [EvGetInputDim "X"; EvSetOutputDim "Out" shape;
                               EvSetOutputDim "Mask" shape] |}).
Proof.
  intros HX HOut HMask Hrank Hglobal Hs Hp Hnz shape.
  eapply (InferShape_success ctx n c spatial (Int.static_cast <$> spatial)
            (strides (Attrs ctx)) (replicate (length spatial) 0)
            (n :: c :: replicate (length spatial) 1)); try done.
  - rewrite Hglobal, GlobalPoolingAdjustment_true by (cbn [length]; lia).
    cbn [length drop]. replace (S (S (length spatial)) - 2)%nat
      with (length spatial) by lia.
    rewrite drop_0, (drop_ge (paddings (Attrs ctx))) by lia.
    by rewrite app_nil_r.
  - by rewrite length_fmap.
  - by rewrite length_replicate.
  - apply output_loop_outs.
    + by rewrite length_fmap.
    + by rewrite length_replicate.
    + done.
    + by rewrite length_replicate.
    + intros i d ki pi si o Hd Hki Hpi Hsi Ho.
      rewrite list_lookup_fmap, Hd in Hki. injection Hki as <-.
      apply lookup_replicate_1 in Hpi as [-> _].
      apply lookup_replicate_1 in Ho as [-> _].
      apply OutputSizeMaxPool_global.
      exact (Forall_lookup_1 _ _ _ _ Hnz Hsi).
Qed.

End ForwardShape.

(** ** The shape law *)

Section ShapeLaw.

Import MaxPoolWithIndexOp.

(** C1. For an input of rank 4 or 5 and window, stride and padding vectors
    of length rank - 2 (as they stand after the global-pooling block, which
    leaves them alone when globalPooling is false), shape inference succeeds
    and sets Out to (batch, channels, outDim...), where on every spatial axis
    outDim = (inDim - windowSize + 2 * padding) / stride + 1 with truncating
    division, and sets Mask to the same shape.  The arithmetic is that of
    the C++ type int: the statement is for extents and intermediate values
    that int represents and for non-zero strides. *)
Theorem InferShape_shape_law ctx n c spatial windowSize stride padding :
  input_vars ctx !! "X" = Some (n :: c :: spatial) →
  is_Some (output_vars ctx !! "Out") →
  is_Some (output_vars ctx !! "Mask") →
  (length spatial = 2 ∨ length spatial = 3)%nat →
  GlobalPoolingAdjustment (n :: c :: spatial) (globalPooling (Attrs ctx))
    (ksize (Attrs ctx)) (strides (Attrs ctx)) (paddings (Attrs ctx))
  = Ok (windowSize, stride, padding) →
  length windowSize = length spatial →
  length stride = length spatial →
  length padding = length spatial →
  forallb axis_defined (axes spatial windowSize padding stride) = true →
  ∃ ctx' shape,
    InferShape ctx = (Ok (), ctx')
    ∧ output_vars ctx'
      = <["Mask" := shape]> (<["Out" := shape]> (output_vars ctx))
    ∧ output_vars ctx' !! "Out" = Some shape
    ∧ output_vars ctx' !! "Mask" = Some shape
    ∧ length shape = (2 + length spatial)%nat
    ∧ shape !! 0%nat = Some n
    ∧ shape !! 1%nat = Some c
    ∧ ∀ i inDim w p s,
        spatial !! i = Some inDim → windowSize !! i = Some w →
        padding !! i = Some p → stride !! i = Some s →
        shape !! (2 + i)%nat = Some ((inDim - w + 2 * p) ÷ s + 1).
Proof.
  intros HX HOut HMask Hrank Hadj Hk Hs Hp Hdef.
  pose proof (output_loop n c _ _ _ _ Hk Hp Hs Hdef) as Hloop.
  eexists _, _. split.
  { eapply InferShape_success; eauto. }
  cbn [output_vars]. split; [done|].
  split; [by rewrite lookup_insert_ne, lookup_insert_eq|].
  split; [by rewrite lookup_insert_eq|].
  split; [by cbn; rewrite length_fmap, length_axes|].
  split; [done|]. split; [done|].
  intros i inDim w p s Hd Hw Hpi Hsi.
  change ((spec_outDim <$> axes spatial windowSize padding stride) !! i
          = Some ((inDim - w + 2 * p) ÷ s + 1)).
  rewrite list_lookup_fmap.
  by rewrite (axes_lookup _ _ _ _ _ _ _ _ _ Hd Hw Hpi Hsi).
Qed.

(** The scenario of the specification: a 1x1x4x4 input pooled by 2x2 windows
    with stride 2 and no padding has a 1x1x2x2 output and mask. *)
Lemma InferShape_shape_law_witness :
  let ctx := forward_ctx [1; 1; 4; 4] (pool_attrs false [2; 2] [2; 2] [0; 0]) in
  ∃ ctx' shape,
    InferShape ctx = (Ok (), ctx')
    ∧ output_vars ctx'
      = <["Mask" := shape]> (<["Out" := shape]> (output_vars ctx))
    ∧ output_vars ctx' !! "Out" = Some shape
    ∧ output_vars ctx' !! "Mask" = Some shape
    ∧ length shape = 4%nat
    ∧ shape !! 0%nat = Some 1
    ∧ shape !! 1%nat = Some 1
    ∧ ∀ i inDim w p s,
        [4; 4] !! i = Some inDim → [2; 2] !! i = Some w →
        [0; 0] !! i = Some p → [2; 2] !! i = Some s →
        shape !! (2 + i)%nat = Some ((inDim - w + 2 * p) ÷ s + 1).
Proof.
  intros ctx.
  apply (InferShape_shape_law ctx 1 1 [4; 4] [2; 2] [2; 2] [0; 0]).
  - reflexivity.
  - exists []. reflexivity.
  - exists []. reflexivity.
  - left. reflexivity.
  - reflexivity.
  - reflexivity.
  - reflexivity.
  - reflexivity.
  - reflexivity.
Defined.

(** C2, as the specification states it, fails: a 5x5 window on a 2x2 input
    without padding gives the output extent -2 on both axes, and shape
    inference returns normally with that shape set on Out and Mask. *)
Lemma InferShape_degenerate_counterexample :
  let ctx := forward_ctx [1; 1; 2; 2] (pool_attrs false [5; 5] [1; 1] [0; 0]) in
  OutputSizeMaxPool 2 5 0 1 = Ok (-2)
  ∧ -2 <= 0
  ∧ fst (InferShape ctx) = Ok ()
  ∧ (∀ msg, fst (InferShape ctx) ≠ EnforceNotMet msg)
  ∧ output_vars (snd (InferShape ctx)) !! "Out" = Some [1; 1; -2; -2]
  ∧ output_vars (snd (InferShape ctx)) !! "Mask" = Some [1; 1; -2; -2].
Proof.
  intros ctx. split; [reflexivity|]. split; [lia|].
  split; [reflexivity|]. split; [by intros msg|].
  split; reflexivity.
Qed.

(** C2, amended. Shape inference does not look at the sign of the extents
    it computes: under the conditions of the shape law, an axis whose
    computed output extent is zero or negative raises no error, and that
    extent is set, as computed, in the shapes of Out and Mask. *)
Theorem InferShape_nonpositive_dim_unchecked
    ctx n c spatial windowSize stride padding i inDim w p s :
  input_vars ctx !! "X" = Some (n :: c :: spatial) →
  is_Some (output_vars ctx !! "Out") →
  is_Some (output_vars ctx !! "Mask") →
  (length spatial = 2 ∨ length spatial = 3)%nat →
  GlobalPoolingAdjustment (n :: c :: spatial) (globalPooling (Attrs ctx))
    (ksize (Attrs ctx)) (strides (Attrs ctx)) (paddings (Attrs ctx))
  = Ok (windowSize, stride, padding) →
  length windowSize = length spatial →
  length stride = length spatial →
  length padding = length spatial →
  forallb axis_defined (axes spatial windowSize padding stride) = true →
  spatial !! i = Some inDim → windowSize !! i = Some w →
  padding !! i = Some p → stride !! i = Some s →
  (inDim - w + 2 * p) ÷ s + 1 <= 0 →
  ∃ ctx' shape o,
    InferShape ctx = (Ok (), ctx')
    ∧ output_vars ctx' !! "Out" = Some shape
    ∧ output_vars ctx' !! "Mask" = Some shape
    ∧ shape !! (2 + i)%nat = Some o
    ∧ o = (inDim - w + 2 * p) ÷ s + 1
    ∧ o <= 0.
Proof.
  intros HX HOut HMask Hrank Hadj Hk Hs Hp Hdef Hd Hw Hpi Hsi Hle.
  pose proof (output_loop n c _ _ _ _ Hk Hp Hs Hdef) as Hloop.
  eexists _, _, _. split.
  { eapply InferShape_success; eauto. }
  cbn [output_vars].
  split; [by rewrite lookup_insert_ne, lookup_insert_eq|].
  split; [by rewrite lookup_insert_eq|].
  split; [|done].
  change ((spec_outDim <$> axes spatial windowSize padding stride) !! i
          = Some ((inDim - w + 2 * p) ÷ s + 1)).
  rewrite list_lookup_fmap.
  by rewrite (axes_lookup _ _ _ _ _ _ _ _ _ Hd Hw Hpi Hsi).
Qed.

Lemma InferShape_nonpositive_dim_unchecked_witness :
  let ctx := forward_ctx [1; 1; 2; 2] (pool_attrs false [5; 5] [1; 1] [0; 0]) in
  ∃ ctx' shape o,
    InferShape ctx = (Ok (), ctx')
    ∧ output_vars ctx' !! "Out" = Some shape
    ∧ output_vars ctx' !! "Mask" = Some shape
    ∧ shape !! 3%nat = Some o
    ∧ o = (2 - 5 + 2 * 0) ÷ 1 + 1
    ∧ o <= 0.
Proof.
  intros ctx.
  apply (InferShape_nonpositive_dim_unchecked
           ctx 1 1 [2; 2] [5; 5] [1; 1] [0; 0] 1 2 5 0 1).
  - reflexivity.
  - exists []. reflexivity.
  - exists []. reflexivity.
  - left. reflexivity.
  - reflexivity.
  - reflexivity.
  - reflexivity.
  - reflexivity.
  - reflexivity.
  - reflexivity.
  - reflexivity.
  - reflexivity.
  - reflexivity.
  - vm_compute. discriminate.
Defined.

End ShapeLaw.

(** ** Global pooling *)

Section GlobalPoolingClaims.

Import MaxPoolWithIndexOp.

(** C3. With globalPooling set, the block overwrites the window of every
    spatial axis with the input's extent on that axis (converted to int,
    which keeps every extent that int represents) and the padding of every
    spatial axis with 0, and leaves the strides as they were; with
    globalPooling unset it changes nothing. *)
Theorem GlobalPoolingAdjustment_contract in_x_dims ksize strides paddings :
  GlobalPoolingAdjustment in_x_dims false ksize strides paddings
  = Ok (ksize, strides, paddings)
  ∧ ((length in_x_dims = 4 ∨ length in_x_dims = 5)%nat →
     (length in_x_dims - 2 ≤ length paddings)%nat →
     ∃ ksize' paddings',
       GlobalPoolingAdjustment in_x_dims true ksize strides paddings
       = Ok (ksize', strides, paddings')
       ∧ length ksize' = (length in_x_dims - 2)%nat
       ∧ length paddings' = length paddings
       ∧ (∀ i d, in_x_dims !! (i + 2)%nat = Some d →
            ksize' !! i = Some (Int.static_cast d)
            ∧ (Int.in_range d = true → ksize' !! i = Some d)
            ∧ paddings' !! i = Some 0)
       ∧ (∀ i, (length in_x_dims - 2 ≤ i)%nat → paddings' !! i = paddings !! i)).
Proof.
  split; [done|]. intros Hrank Hpad.
  eexists _, _. split.
  { apply GlobalPoolingAdjustment_true; [lia | done]. }
  split; [by rewrite length_fmap, length_drop|].
  split; [rewrite length_app, length_replicate, length_drop; lia|].
  split.
  - intros i d Hd.
    assert (i < length in_x_dims - 2)%nat as Hi.
    { apply lookup_lt_Some in Hd. lia. }
    assert ((Int.static_cast <$> drop 2 in_x_dims) !! i
            = Some (Int.static_cast d)) as Hk.
    { rewrite list_lookup_fmap, lookup_drop, Nat.add_comm, Hd. done. }
    split; [done|]. split.
    + intros Hfit. by rewrite Hk, (static_cast_in_range _ Hfit).
    + rewrite lookup_app_l by (rewrite length_replicate; lia).
      by apply lookup_replicate_2.
  - intros i Hi.
    rewrite lookup_app_r by (rewrite length_replicate; lia).
    rewrite length_replicate, lookup_drop. f_equal. lia.
Qed.

Lemma GlobalPoolingAdjustment_contract_witness :
  ∃ ksize' paddings',
    GlobalPoolingAdjustment [8; 3; 7; 5] true [2; 2] [1; 2] [1; 1]
    = Ok (ksize', [1; 2], paddings')
    ∧ length ksize' = 2%nat
    ∧ length paddings' = 2%nat
    ∧ (∀ i d, [8; 3; 7; 5] !! (i + 2)%nat = Some d →
         ksize' !! i = Some (Int.static_cast d)
         ∧ (Int.in_range d = true → ksize' !! i = Some d)
         ∧ paddings' !! i = Some 0)
    ∧ (∀ i, (2 ≤ i)%nat → paddings' !! i = [1; 1] !! i).
Proof.
  apply (GlobalPoolingAdjustment_contract [8; 3; 7; 5] [2; 2] [1; 2] [1; 1]).
  - left. reflexivity.
  - simpl. lia.
Defined.

(** C4. With globalPooling set on an input of rank 4 or 5, every spatial
    extent of the output is 1, whatever window and whatever padding values
    were supplied; the strides are those given (one per axis, none zero) and
    the padding vector has one entry per axis. *)
Theorem InferShape_global_pooling ctx n c spatial :
  input_vars ctx !! "X" = Some (n :: c :: spatial) →
  is_Some (output_vars ctx !! "Out") →
  is_Some (output_vars ctx !! "Mask") →
  (length spatial = 2 ∨ length spatial = 3)%nat →
  globalPooling (Attrs ctx) = true →
  length (strides (Attrs ctx)) = length spatial →
  length (paddings (Attrs ctx)) = length spatial →
  Forall (λ s, s ≠ 0) (strides (Attrs ctx)) →
  ∃ ctx' shape,
    InferShape ctx = (Ok (), ctx')
    ∧ output_vars ctx' !! "Out" = Some shape
    ∧ output_vars ctx' !! "Mask" = Some shape
    ∧ shape = n :: c :: replicate (length spatial) 1
    ∧ ∀ i, (i < length spatial)%nat → shape !! (2 + i)%nat = Some 1.
Proof.
  intros HX HOut HMask Hrank Hglobal Hs Hp Hnz.
  eexists _, (n :: c :: replicate (length spatial) 1). split.
  { by apply InferShape_global_run. }
  cbn [output_vars].
  split; [by rewrite lookup_insert_ne, lookup_insert_eq|].
  split; [by rewrite lookup_insert_eq|].
  split; [done|].
  intros i Hi.
  change (replicate (length spatial) 1 !! i = Some 1).
  by apply lookup_replicate_2.
Qed.

(** A 2x3x7x5 input with a 2x2 window, paddings 4 and 9 and strides 3 and 2
    pools to 2x3x1x1 under global pooling. *)
Lemma InferShape_global_pooling_witness :
  let ctx := forward_ctx [2; 3; 7; 5] (pool_attrs true [2; 2] [3; 2] [4; 9]) in
  ∃ ctx' shape,
    InferShape ctx = (Ok (), ctx')
    ∧ output_vars ctx' !! "Out" = Some shape
    ∧ output_vars ctx' !! "Mask" = Some shape
    ∧ shape = [2; 3; 1; 1]
    ∧ ∀ i, (i < 2)%nat → shape !! (2 + i)%nat = Some 1.
Proof.
  intros ctx.
  apply (InferShape_global_pooling ctx 2 3 [7; 5]).
  - reflexivity.
  - exists []. reflexivity.
  - exists []. reflexivity.
  - left. reflexivity.
  - reflexivity.
  - reflexivity.
  - reflexivity.
  - repeat constructor; discriminate.
Defined.

End GlobalPoolingClaims.

(** ** The checks of the forward operator *)

Section ForwardChecks.

Import MaxPoolWithIndexOp.

Ltac run_InferShape :=
  unfold InferShape;
  cbv [mbind InferShapeM_bind HasInput HasOutput PADDLE_ENFORCE GetInputDim
       GetAttr lift SetOutputDim].

(** Past the three presence checks and the read of [X]'s dimensions. *)
Ltac run_prefix HX :=
  run_InferShape;
  rewrite !bool_decide_eq_true_2 by eauto;
  rewrite HX; cbn [log Attrs].

Lemma InferShape_missing ctx :
  input_vars ctx !! "X" = None ∨ output_vars ctx !! "Out" = None
  ∨ output_vars ctx !! "Mask" = None →
  ∃ msg, InferShape ctx = (EnforceNotMet msg, ctx)
         ∧ (msg = "X(Input) of Pooling should not be null."
            ∨ msg = "Out(Output) of Pooling should not be null."
            ∨ msg = "Mask(Output) of Pooling should not be null.").
Proof.
  intros Hmiss. run_InferShape.
  destruct (input_vars ctx !! "X") as [x|] eqn:HX.
  2: { eexists. split; [reflexivity | by left]. }
  destruct (output_vars ctx !! "Out") as [o|] eqn:HOut.
  2: { eexists. split; [reflexivity | by right; left]. }
  destruct (output_vars ctx !! "Mask") as [m|] eqn:HMask.
  2: { eexists. split; [reflexivity | by right; right]. }
  by destruct Hmiss as [? | [? | ?]].
Qed.

Lemma rank_check_true (dims : list Z) :
  (length dims = 4 ∨ length dims = 5)%nat →
  bool_decide (length dims = 4%nat) || bool_decide (length dims = 5%nat) = true.
Proof. intros [-> | ->]; done. Qed.

Lemma rank_check_false (dims : list Z) :
  ¬ (length dims = 4 ∨ length dims = 5)%nat →
  bool_decide (length dims = 4%nat) || bool_decide (length dims = 5%nat) = false.
Proof.
  intros Hrank. apply orb_false_iff.
  split; apply bool_decide_eq_false_2; tauto.
Qed.

Lemma InferShape_bad_rank ctx dims :
  input_vars ctx !! "X" = Some dims →
  is_Some (output_vars ctx !! "Out") →
  is_Some (output_vars ctx !! "Mask") →
  ¬ (length dims = 4 ∨ length dims = 5)%nat →
  InferShape ctx
  = (EnforceNotMet "Pooling intput should be 4-D or 5-D tensor.",
     log (EvGetInputDim "X") ctx).
Proof.
  intros HX HOut HMask Hrank. run_prefix HX.
  by rewrite (rank_check_false _ Hrank).
Qed.

Lemma InferShape_adjust_undefined ctx dims :
  input_vars ctx !! "X" = Some dims →
  is_Some (output_vars ctx !! "Out") →
  is_Some (output_vars ctx !! "Mask") →
  (length dims = 4 ∨ length dims = 5)%nat →
  GlobalPoolingAdjustment dims (globalPooling (Attrs ctx))
    (ksize (Attrs ctx)) (strides (Attrs ctx)) (paddings (Attrs ctx))
  = Undefined →
  InferShape ctx = (Undefined, log (EvGetInputDim "X") ctx).
Proof.
  intros HX HOut HMask Hrank Hadj. run_prefix HX.
  by rewrite (rank_check_true _ Hrank), Hadj.
Qed.

Lemma InferShape_size_error ctx dims k' s' p' :
  input_vars ctx !! "X" = Some dims →
  is_Some (output_vars ctx !! "Out") →
  is_Some (output_vars ctx !! "Mask") →
  (length dims = 4 ∨ length dims = 5)%nat →
  GlobalPoolingAdjustment dims (globalPooling (Attrs ctx))
    (ksize (Attrs ctx)) (strides (Attrs ctx)) (paddings (Attrs ctx))
  = Ok (k', s', p') →
  (size_t_sub (length dims) (length k') =? 2) = false →
  InferShape ctx
  = (EnforceNotMet "Input size and pooling size should be consistent.",
     log (EvGetInputDim "X") ctx).
Proof.
  intros HX HOut HMask Hrank Hadj Hsize. run_prefix HX.
  by rewrite (rank_check_true _ Hrank), Hadj, Hsize.
Qed.

Lemma InferShape_strides_error ctx dims k' s' p' :
  input_vars ctx !! "X" = Some dims →
  is_Some (output_vars ctx !! "Out") →
  is_Some (output_vars ctx !! "Mask") →
  (length dims = 4 ∨ length dims = 5)%nat →
  GlobalPoolingAdjustment dims (globalPooling (Attrs ctx))
    (ksize (Attrs ctx)) (strides (Attrs ctx)) (paddings (Attrs ctx))
  = Ok (k', s', p') →
  (size_t_sub (length dims) (length k') =? 2) = true →
  length k' ≠ length s' →
  InferShape ctx
  = (EnforceNotMet "Strides size and pooling size should be the same.",
     log (EvGetInputDim "X") ctx).
Proof.
  intros HX HOut HMask Hrank Hadj Hsize Hs. run_prefix HX.
  rewrite (rank_check_true _ Hrank), Hadj, Hsize.
  by rewrite (bool_decide_eq_false_2 _ Hs).
Qed.

Lemma InferShape_paddings_error ctx dims k' s' p' :
  input_vars ctx !! "X" = Some dims →
  is_Some (output_vars ctx !! "Out") →
  is_Some (output_vars ctx !! "Mask") →
  (length dims = 4 ∨ length dims = 5)%nat →
  GlobalPoolingAdjustment dims (globalPooling (Attrs ctx))
    (ksize (Attrs ctx)) (strides (Attrs ctx)) (paddings (Attrs ctx))
  = Ok (k', s', p') →
  (size_t_sub (length dims) (length k') =? 2) = true →
  length k' = length s' →
  length k' ≠ length p' →
  InferShape ctx
  = (EnforceNotMet "Paddings size and pooling size should be the same.",
     log (EvGetInputDim "X") ctx).
Proof.
  intros HX HOut HMask Hrank Hadj Hsize Hs Hp. run_prefix HX.
  rewrite (rank_check_true _ Hrank), Hadj, Hsize.
  rewrite (bool_decide_eq_true_2 _ Hs).
  by rewrite (bool_decide_eq_false_2 _ Hp).
Qed.

(** The size check on [size_t] agrees with the one on the integers for
    every vector that fits in memory: a [std::vector<int>] holds fewer than
    [2^62] elements. *)
Lemma size_check_spec (rank len : nat) :
  Z.of_nat rank < 2 ^ 62 → Z.of_nat len < 2 ^ 62 →
  (size_t_sub rank len =? 2) = bool_decide (rank = len + 2)%nat.
Proof.
  intros Hrank Hlen. unfold size_t_sub.
  destruct (decide (len ≤ rank)%nat) as [Hle|Hgt].
  - rewrite Z.mod_small by lia.
    destruct (Z.eqb_spec (Z.of_nat rank - Z.of_nat len) 2) as [Heq|Hne];
      symmetry; [apply bool_decide_eq_true_2 | apply bool_decide_eq_false_2]; lia.
  - assert ((Z.of_nat rank - Z.of_nat len) `mod` 2 ^ 64
            = Z.of_nat rank - Z.of_nat len + 2 ^ 64) as ->.
    { symmetry. apply (Z.mod_unique _ _ (-1)); lia. }
    destruct (Z.eqb_spec (Z.of_nat rank - Z.of_nat len + 2 ^ 64) 2) as [Heq|Hne];
      symmetry; [lia | apply bool_decide_eq_false_2; lia].
Qed.

(** Neither loop contains a [PADDLE_ENFORCE]. *)
Lemma for_loop_no_enforce {St} (body : nat → St → outcome St) first count s msg :
  (∀ i s, body i s ≠ EnforceNotMet msg) →
  for_loop body first count s ≠ EnforceNotMet msg.
Proof.
  intros Hbody. revert first s.
  induction count as [|count IH]; intros first s; [done|].
  cbn. destruct (body first s) as [s1|msg1|] eqn:Hb; cbn.
  - apply IH.
  - intros [= ->]. by apply (Hbody first s).
  - done.
Qed.

Lemma OutputSizeMaxPool_no_enforce d k p s msg :
  OutputSizeMaxPool d k p s ≠ EnforceNotMet msg.
Proof.
  unfold OutputSizeMaxPool, Int.sub, Int.mul, Int.add, Int.div, Int.checked.
  repeat (case_match; cbn; try done).
Qed.

Lemma output_step_no_enforce dims k p s i shape msg :
  output_step dims k p s i shape ≠ EnforceNotMet msg.
Proof.
  unfold output_step, vec_get.
  destruct (dims !! (i + 2)%nat) as [d|]; cbn; [|done].
  destruct (k !! i) as [ki|]; cbn; [|done].
  destruct (p !! i) as [pi|]; cbn; [|done].
  destruct (s !! i) as [si|]; cbn; [|done].
  pose proof (OutputSizeMaxPool_no_enforce (Int.static_cast d) ki pi si msg).
  destruct (OutputSizeMaxPool (Int.static_cast d) ki pi si);
    cbn; [done | congruence | done].
Qed.

Lemma global_step_no_enforce dims i vs msg :
  global_step dims i vs ≠ EnforceNotMet msg.
Proof.
  unfold global_step, vec_get, vec_set. destruct vs as [k p].
  repeat (case_match; cbn; try done).
Qed.

Lemma GlobalPoolingAdjustment_no_enforce dims global k s p msg :
  GlobalPoolingAdjustment dims global k s p ≠ EnforceNotMet msg.
Proof.
  unfold GlobalPoolingAdjustment. destruct global; [|done].
  cbn zeta.
  destruct (for_loop _ _ _ _) as [[k' p']|msg'|] eqn:Hrun; cbn; [done| |done].
  intros [= ->]. eapply for_loop_no_enforce; [|exact Hrun].
  intros i vs. apply global_step_no_enforce.
Qed.

(** Whenever the global-pooling block returns, the window it leaves has one
    entry per spatial axis. *)
Lemma GlobalPoolingAdjustment_true_length dims k s p k' s' p' :
  GlobalPoolingAdjustment dims true k s p = Ok (k', s', p') →
  length k' = (length dims - 2)%nat.
Proof.
  unfold GlobalPoolingAdjustment. rewrite length_vec_resize.
  pose proof (length_vec_resize k (length dims - 2)) as Hlen.
  generalize dependent (vec_resize k (length dims - 2)). intros k0 Hlen.
  assert (∀ count first vs vs',
    for_loop (global_step dims) first count vs = Ok vs' →
    length vs'.1 = length vs.1) as Hinv.
  { induction count as [|count IH]; intros first [k1 p1] vs'; cbn.
    - by intros [= <-].
    - unfold vec_set, vec_get.
      repeat (case_match; cbn; try done).
      intros Hrun. apply IH in Hrun. cbn in Hrun.
      by rewrite length_insert in Hrun. }
  destruct (for_loop _ _ _ _) as [[k1 p1]| |] eqn:Hrun; cbn; try done.
  intros [= <- <- <-]. apply Hinv in Hrun. cbn in Hrun. lia.
Qed.

Lemma InferShape_not_size_error ctx dims k' s' p' ctx' :
  input_vars ctx !! "X" = Some dims →
  is_Some (output_vars ctx !! "Out") →
  is_Some (output_vars ctx !! "Mask") →
  (length dims = 4 ∨ length dims = 5)%nat →
  GlobalPoolingAdjustment dims (globalPooling (Attrs ctx))
    (ksize (Attrs ctx)) (strides (Attrs ctx)) (paddings (Attrs ctx))
  = Ok (k', s', p') →
  (size_t_sub (length dims) (length k') =? 2) = true →
  InferShape ctx
  ≠ (EnforceNotMet "Input size and pooling size should be consistent.", ctx').
Proof.
  intros HX HOut HMask Hrank Hadj Hsize. run_prefix HX.
  rewrite (rank_check_true _ Hrank), Hadj, Hsize.
  destruct (bool_decide (length k' = length s')); [|by intros [=]].
  destruct (bool_decide (length k' = length p')); [|by intros [=]].
  unfold vec_get.
  destruct (dims !! 0%nat) as [n|]; [|by intros [=]].
  destruct (dims !! 1%nat) as [c|]; [|by intros [=]].
  destruct (for_loop _ _ _ _) as [shape|msg|] eqn:Hloop; [| |by intros [=]].
  - repeat (case_match; simplify_eq; try done).
  - intros _. eapply for_loop_no_enforce; [|exact Hloop].
    intros i shape. apply output_step_no_enforce.
Qed.

End ForwardChecks.

(** ** Violated preconditions and missing references *)

Section ForwardErrors.

Import MaxPoolWithIndexOp.

(** C5, as the specification states it, fails: under global pooling a
    window vector of the wrong length (here one entry for two spatial axes,
    so that it also differs in length from the strides and the paddings) is
    accepted, and the shapes of Out and Mask are set. *)
Lemma InferShape_precondition_counterexample :
  let ctx := forward_ctx [1; 1; 4; 4] (pool_attrs true [3] [1; 1] [0; 0]) in
  (length [1; 1; 4; 4] - 2)%nat ≠ length (ksize (Attrs ctx))
  ∧ length (ksize (Attrs ctx)) ≠ length (strides (Attrs ctx))
  ∧ length (ksize (Attrs ctx)) ≠ length (paddings (Attrs ctx))
  ∧ fst (InferShape ctx) = Ok ()
  ∧ output_vars (snd (InferShape ctx)) !! "Out" = Some [1; 1; 1; 1]
  ∧ output_vars (snd (InferShape ctx)) !! "Mask" = Some [1; 1; 1; 1].
Proof.
  intros ctx. repeat split; try reflexivity; cbn; lia.
Qed.

(** C5, amended. Shape inference fails with a configuration error, having
    set no output dimension, (a) whenever the input rank is not 4 or 5;
    (b) with globalPooling unset, whenever rank - 2 differs from the length
    of the window, or the window and the strides, or the window and the
    paddings, differ in length; (c) with globalPooling set, where the
    window is first resized to rank - 2 and its supplied length is not
    checked, whenever the strides or the paddings do not have rank - 2
    entries, the paddings having at least that many. *)
Theorem InferShape_precondition_violation ctx in_x_dims :
  input_vars ctx !! "X" = Some in_x_dims →
  is_Some (output_vars ctx !! "Out") →
  is_Some (output_vars ctx !! "Mask") →
  Z.of_nat (length (ksize (Attrs ctx))) < 2 ^ 62 →
  ¬ (length in_x_dims = 4 ∨ length in_x_dims = 5)%nat
  ∨ (globalPooling (Attrs ctx) = false
     ∧ ((length in_x_dims - 2)%nat ≠ length (ksize (Attrs ctx))
        ∨ length (ksize (Attrs ctx)) ≠ length (strides (Attrs ctx))
        ∨ length (ksize (Attrs ctx)) ≠ length (paddings (Attrs ctx))))
  ∨ (globalPooling (Attrs ctx) = true
     ∧ (length in_x_dims - 2 ≤ length (paddings (Attrs ctx)))%nat
     ∧ ((length in_x_dims - 2)%nat ≠ length (strides (Attrs ctx))
        ∨ (length in_x_dims - 2)%nat ≠ length (paddings (Attrs ctx)))) →
  ∃ msg ctx',
    InferShape ctx = (EnforceNotMet msg, ctx')
    ∧ output_vars ctx' = output_vars ctx
    ∧ trace ctx' = trace ctx ++ [EvGetInputDim "X"].
Proof.
  intros HX HOut HMask Hmax Hviol.
  destruct (decide (length in_x_dims = 4 ∨ length in_x_dims = 5)%nat)
    as [Hrank|Hrank].
  2: { eexists _, _. split; [by apply (InferShape_bad_rank ctx in_x_dims) | done]. }
  destruct Hviol as [Hbad | [[Hglobal Hbad] | (Hglobal & Hcover & Hbad)]];
    [done | |].
  - assert (GlobalPoolingAdjustment in_x_dims (globalPooling (Attrs ctx))
              (ksize (Attrs ctx)) (strides (Attrs ctx)) (paddings (Attrs ctx))
            = Ok (ksize (Attrs ctx), strides (Attrs ctx), paddings (Attrs ctx)))
      as Hadj by (by rewrite Hglobal).
    pose proof (size_check_spec (length in_x_dims) (length (ksize (Attrs ctx))))
      as Hsize.
    destruct (decide (length in_x_dims = length (ksize (Attrs ctx)) + 2)%nat)
      as [Heq|Hne].
    + rewrite (bool_decide_eq_true_2 _ Heq) in Hsize.
      destruct (decide (length (ksize (Attrs ctx)) = length (strides (Attrs ctx))))
        as [Hs|Hs].
      * destruct Hbad as [Hbad | [Hbad | Hbad]]; [lia | done |].
        eexists _, (log (EvGetInputDim "X") ctx). split; [|done].
        eapply InferShape_paddings_error; eauto. apply Hsize; lia.
      * eexists _, (log (EvGetInputDim "X") ctx). split; [|done].
        eapply InferShape_strides_error; eauto. apply Hsize; lia.
    + rewrite (bool_decide_eq_false_2 _ Hne) in Hsize.
      eexists _, (log (EvGetInputDim "X") ctx). split; [|done].
      eapply InferShape_size_error; eauto. apply Hsize; lia.
  - pose proof (GlobalPoolingAdjustment_true in_x_dims (ksize (Attrs ctx))
                  (strides (Attrs ctx)) (paddings (Attrs ctx))) as Hadj.
    rewrite <- Hglobal in Hadj. specialize (Hadj ltac:(lia) Hcover).
    assert ((size_t_sub (length in_x_dims)
               (length (Int.static_cast <$> drop 2 in_x_dims)) =? 2) = true)
      as Hsize.
    { rewrite length_fmap, length_drop, size_check_spec by lia.
      apply bool_decide_eq_true_2. lia. }
    destruct (decide ((length in_x_dims - 2)%nat = length (strides (Attrs ctx))))
      as [Hs|Hs].
    + destruct Hbad as [Hbad | Hbad]; [done|].
      eexists _, (log (EvGetInputDim "X") ctx). split; [|done].
      eapply InferShape_paddings_error; eauto.
      * by rewrite length_fmap, length_drop.
      * rewrite length_fmap, length_app, length_replicate, !length_drop. lia.
    + eexists _, (log (EvGetInputDim "X") ctx). split; [|done].
      eapply InferShape_strides_error; eauto.
      by rewrite length_fmap, length_drop.
Qed.

(** A rank-3 input; a window of three entries on a rank-4 input; and, under
    global pooling, three strides on a rank-4 input. *)
Lemma InferShape_precondition_violation_witness :
  (∃ msg ctx',
     InferShape (forward_ctx [1; 4; 4] (pool_attrs false [2; 2] [1; 1] [0; 0]))
     = (EnforceNotMet msg, ctx')
     ∧ output_vars ctx' = {[ "Out" := []; "Mask" := [] ]}
     ∧ trace ctx' = [EvGetInputDim "X"])
  ∧ (∃ msg ctx',
       InferShape (forward_ctx [1; 1; 4; 4] (pool_attrs false [2; 2; 2] [1; 1] [0; 0]))
       = (EnforceNotMet msg, ctx')
       ∧ output_vars ctx' = {[ "Out" := []; "Mask" := [] ]}
       ∧ trace ctx' = [EvGetInputDim "X"])
  ∧ (∃ msg ctx',
       InferShape (forward_ctx [1; 1; 4; 4] (pool_attrs true [2; 2] [1; 1; 1] [0; 0]))
       = (EnforceNotMet msg, ctx')
       ∧ output_vars ctx' = {[ "Out" := []; "Mask" := [] ]}
       ∧ trace ctx' = [EvGetInputDim "X"]).
Proof.
  split; [|split].
  - apply (InferShape_precondition_violation
             (forward_ctx [1; 4; 4] (pool_attrs false [2; 2] [1; 1] [0; 0]))
             [1; 4; 4]).
    + reflexivity.
    + exists []. reflexivity.
    + exists []. reflexivity.
    + reflexivity.
    + left. simpl. lia.
  - apply (InferShape_precondition_violation
             (forward_ctx [1; 1; 4; 4] (pool_attrs false [2; 2; 2] [1; 1] [0; 0]))
             [1; 1; 4; 4]).
    + reflexivity.
    + exists []. reflexivity.
    + exists []. reflexivity.
    + reflexivity.
    + right. left. split; [reflexivity|]. left. simpl. lia.
  - apply (InferShape_precondition_violation
             (forward_ctx [1; 1; 4; 4] (pool_attrs true [2; 2] [1; 1; 1] [0; 0]))
             [1; 1; 4; 4]).
    + reflexivity.
    + exists []. reflexivity.
    + exists []. reflexivity.
    + reflexivity.
    + right. right. split; [reflexivity|]. split; [simpl; lia|].
      left. simpl. lia.
Defined.

(** C7. When the X input, the Out output or the Mask output is missing,
    the forward shape inference stops with a configuration error, and the
    context is as it was: no dimension has been read and none set. *)
Theorem InferShape_missing_reference ctx :
  input_vars ctx !! "X" = None ∨ output_vars ctx !! "Out" = None
  ∨ output_vars ctx !! "Mask" = None →
  ∃ msg,
    InferShape ctx = (EnforceNotMet msg, ctx)
    ∧ trace (snd (InferShape ctx)) = trace ctx
    ∧ output_vars (snd (InferShape ctx)) = output_vars ctx
    ∧ (msg = "X(Input) of Pooling should not be null."
       ∨ msg = "Out(Output) of Pooling should not be null."
       ∨ msg = "Mask(Output) of Pooling should not be null.").
Proof.
  intros Hmiss. destruct (InferShape_missing ctx Hmiss) as (msg & Hrun & Hmsg).
  exists msg. by rewrite Hrun.
Qed.

Lemma InferShape_missing_reference_witness :
  let ctx := {| input_vars := {[ "X" := [1; 1; 4; 4] ]};
                output_vars := {[ "Out" := [] ]};
                Attrs := pool_attrs false [2; 2] [2; 2] [0; 0];
                trace := [] |} in
  ∃ msg,
    InferShape ctx = (EnforceNotMet msg, ctx)
    ∧ trace (snd (InferShape ctx)) = trace ctx
    ∧ output_vars (snd (InferShape ctx)) = output_vars ctx
    ∧ (msg = "X(Input) of Pooling should not be null."
       ∨ msg = "Out(Output) of Pooling should not be null."
       ∨ msg = "Mask(Output) of Pooling should not be null.").
Proof.
  intros ctx. apply (InferShape_missing_reference ctx).
  right. right. reflexivity.
Defined.

(** C9. Under global pooling the window is resized to rank - 2 before the
    size checks, so the error about the input size and the pooling size is
    raised only with globalPooling unset, and with globalPooling set a
    window vector of any length passes shape inference (the strides and
    paddings having one entry per axis, the strides non-zero). *)
Theorem InferShape_global_pooling_window_length :
  (∀ ctx ctx',
     InferShape ctx
     = (EnforceNotMet "Input size and pooling size should be consistent.", ctx') →
     globalPooling (Attrs ctx) = false)
  ∧ (∀ in_x_dims ksize strides paddings ksize' strides' paddings',
       GlobalPoolingAdjustment in_x_dims true ksize strides paddings
       = Ok (ksize', strides', paddings') →
       length ksize' = (length in_x_dims - 2)%nat)
  ∧ (∀ inputs outputs events n c spatial ksize strides paddings,
       inputs !! "X" = Some (n :: c :: spatial) →
       is_Some (outputs !! "Out") →
       is_Some (outputs !! "Mask") →
       (length spatial = 2 ∨ length spatial = 3)%nat →
       length strides = length spatial →
       length paddings = length spatial →
       Forall (λ s, s ≠ 0) strides →
       ∃ ctx',
         InferShape {| input_vars := inputs; output_vars := outputs;
                       Attrs := pool_attrs true ksize strides paddings;
                       trace := events |}
         = (Ok (), ctx')).
Proof.
  split; [|split].
  - intros ctx ctx' Hrun.
    destruct (globalPooling (Attrs ctx)) eqn:Hglobal; [exfalso | done].
    destruct (input_vars ctx !! "X") as [dims|] eqn:HX.
    2: { destruct (InferShape_missing ctx) as (msg & Hmiss & Hmsg); [by left|].
         rewrite Hmiss in Hrun. by destruct Hmsg as [-> | [-> | ->]]. }
    destruct (output_vars ctx !! "Out") as [out|] eqn:HOut.
    2: { destruct (InferShape_missing ctx) as (msg & Hmiss & Hmsg);
           [by right; left|].
         rewrite Hmiss in Hrun. by destruct Hmsg as [-> | [-> | ->]]. }
    destruct (output_vars ctx !! "Mask") as [mask|] eqn:HMask.
    2: { destruct (InferShape_missing ctx) as (msg & Hmiss & Hmsg);
           [by right; right|].
         rewrite Hmiss in Hrun. by destruct Hmsg as [-> | [-> | ->]]. }
    assert (is_Some (output_vars ctx !! "Out")) as HOut' by by rewrite HOut.
    assert (is_Some (output_vars ctx !! "Mask")) as HMask' by by rewrite HMask.
    destruct (decide (length dims = 4 ∨ length dims = 5)%nat) as [Hrank|Hrank].
    2: { by rewrite (InferShape_bad_rank ctx dims) in Hrun. }
    destruct (GlobalPoolingAdjustment dims (globalPooling (Attrs ctx))
                (ksize (Attrs ctx)) (strides (Attrs ctx)) (paddings (Attrs ctx)))
      as [[[k' s'] p']|msg|] eqn:Hadj.
    + eapply InferShape_not_size_error; eauto.
      rewrite Hglobal in Hadj.
      apply GlobalPoolingAdjustment_true_length in Hadj.
      rewrite Hadj, size_check_spec by lia.
      apply bool_decide_eq_true_2. lia.
    + by apply GlobalPoolingAdjustment_no_enforce in Hadj.
    + by rewrite (InferShape_adjust_undefined ctx dims) in Hrun.
  - intros. by eapply GlobalPoolingAdjustment_true_length.
  - intros inputs outputs events n c spatial ksize strides paddings
      HX HOut HMask Hrank Hs Hp Hnz.
    eexists. by apply (InferShape_global_run _ n c spatial).
Qed.

(** One, two and five window entries on a rank-4 input. *)
Lemma InferShape_global_pooling_window_length_witness :
  (∃ ctx', InferShape (forward_ctx [1; 1; 4; 4] (pool_attrs true [3] [1; 1] [0; 0]))
           = (Ok (), ctx'))
  ∧ (∃ ctx', InferShape (forward_ctx [1; 1; 4; 4]
                           (pool_attrs true [3; 3; 3; 3; 3] [1; 1] [0; 0]))
             = (Ok (), ctx'))
  ∧ globalPooling
      (Attrs (forward_ctx [1; 1; 4; 4] (pool_attrs false [3] [1; 1] [0; 0])))
    = false.
Proof.
  pose proof InferShape_global_pooling_window_length as (Hmsg & _ & Hpass).
  split; [|split].
  - apply (Hpass {[ "X" := [1; 1; 4; 4] ]} {[ "Out" := []; "Mask" := [] ]} []
             1 1 [4; 4] [3] [1; 1] [0; 0]).
    + reflexivity.
    + exists []. reflexivity.
    + exists []. reflexivity.
    + left. reflexivity.
    + reflexivity.
    + reflexivity.
    + repeat constructor; discriminate.
  - apply (Hpass {[ "X" := [1; 1; 4; 4] ]} {[ "Out" := []; "Mask" := [] ]} []
             1 1 [4; 4] [3; 3; 3; 3; 3] [1; 1] [0; 0]).
    + reflexivity.
    + exists []. reflexivity.
    + exists []. reflexivity.
    + left. reflexivity.
    + reflexivity.
    + reflexivity.
    + repeat constructor; discriminate.
  - apply (Hmsg _ (log (EvGetInputDim "X")
                     (forward_ctx [1; 1; 4; 4] (pool_attrs false [3] [1; 1] [0; 0])))).
    reflexivity.
Defined.

(** Two configurations outside the conditions above, on which the behaviour
    of the C++ code is undefined: a zero stride divides by zero, and under
    global pooling a [paddings] vector shorter than the number of spatial
    axes is written past its end before its length is checked. *)
Example InferShape_zero_stride :
  fst (InferShape (forward_ctx [1; 1; 4; 4] (pool_attrs false [2; 2] [0; 1] [0; 0])))
  = Undefined.
Proof. reflexivity. Qed.

Example InferShape_global_short_paddings :
  fst (InferShape (forward_ctx [1; 1; 4; 4] (pool_attrs true [2; 2] [1; 1] [0])))
  = Undefined.
Proof. reflexivity. Qed.

End ForwardErrors.

(** ** The gradient operator *)

Section GradShape.

Import MaxPoolWithIndexOpGrad.

Ltac run_InferShape :=
  unfold InferShape;
  cbv [mbind InferShapeM_bind HasInput HasOutput PADDLE_ENFORCE GetInputDim
       GetAttr lift SetOutputDim].

Lemma Grad_InferShape_run ctx dim :
  is_Some (input_vars ctx !! "Mask") →
  input_vars ctx !! "X" = Some dim →
  is_Some (output_vars ctx !! "X@GRAD") →
  InferShape ctx
  = (Ok (),
     {| input_vars := input_vars ctx;
        output_vars := <["X@GRAD" := dim]> (output_vars ctx);
        Attrs := Attrs ctx;
        trace := trace ctx ++ [EvGetInputDim "X"; EvSetOutputDim "X@GRAD" dim] |}).
Proof.
  intros HMask HX HdX. run_InferShape.
  change (GradVarName "X") with "X@GRAD".
  rewrite !bool_decide_eq_true_2 by eauto.
  rewrite HX. unfold log. cbn [output_vars input_vars Attrs trace].
  destruct HdX as [dx ->]. by rewrite <- app_assoc.
Qed.

Lemma Grad_InferShape_missing ctx :
  input_vars ctx !! "Mask" = None ∨ input_vars ctx !! "X" = None
  ∨ output_vars ctx !! "X@GRAD" = None →
  ∃ msg, InferShape ctx = (EnforceNotMet msg, ctx)
         ∧ (msg = "Input(Mask) must not be null."
            ∨ msg = "Input(X) must not be null."
            ∨ msg = "Input(X@GRAD) should not be null.").
Proof.
  intros Hmiss. run_InferShape.
  change (GradVarName "X") with "X@GRAD".
  destruct (input_vars ctx !! "Mask") as [m|] eqn:HMask.
  2: { eexists. split; [reflexivity | by left]. }
  destruct (input_vars ctx !! "X") as [x|] eqn:HX.
  2: { eexists. split; [reflexivity | by right; left]. }
  destruct (output_vars ctx !! "X@GRAD") as [dx|] eqn:HdX.
  2: { eexists. split; [reflexivity | by right; right]. }
  by destruct Hmiss as [? | [? | ?]].
Qed.

(** C6. Gradient shape inference sets the shape of the input gradient to
    the shape of the input X, and it fails with a configuration error,
    setting nothing, when the Mask input, the X input or the X-gradient
    output is missing. *)
Theorem Grad_InferShape_contract ctx :
  (∀ dim,
     is_Some (input_vars ctx !! "Mask") →
     input_vars ctx !! "X" = Some dim →
     is_Some (output_vars ctx !! GradVarName "X") →
     ∃ ctx',
       MaxPoolWithIndexOpGrad.InferShape ctx = (Ok (), ctx')
       ∧ output_vars ctx' !! GradVarName "X" = Some dim
       ∧ output_vars ctx' = <[GradVarName "X" := dim]> (output_vars ctx))
  ∧ (input_vars ctx !! "Mask" = None ∨ input_vars ctx !! "X" = None
     ∨ output_vars ctx !! GradVarName "X" = None →
     ∃ msg,
       MaxPoolWithIndexOpGrad.InferShape ctx = (EnforceNotMet msg, ctx)
       ∧ (msg = "Input(Mask) must not be null."
          ∨ msg = "Input(X) must not be null."
          ∨ msg = "Input(X@GRAD) should not be null.")).
Proof.
  change (GradVarName "X") with "X@GRAD". split.
  - intros dim HMask HX HdX. eexists. split.
    + by apply Grad_InferShape_run.
    + cbn [output_vars]. by rewrite lookup_insert_eq.
  - apply Grad_InferShape_missing.
Qed.

Lemma Grad_InferShape_contract_witness :
  (∃ ctx',
     MaxPoolWithIndexOpGrad.InferShape (grad_ctx [1; 1; 2; 2] [1; 1; 4; 4] [1; 1; 2; 2]) = (Ok (), ctx')
     ∧ output_vars ctx' !! GradVarName "X" = Some [1; 1; 4; 4]
     ∧ output_vars ctx' = <[GradVarName "X" := [1; 1; 4; 4]]> {[ "X@GRAD" := [] ]})
  ∧ (∃ msg,
       MaxPoolWithIndexOpGrad.InferShape {| input_vars := {[ "X" := [1; 1; 4; 4] ]};
                     output_vars := {[ "X@GRAD" := [] ]};
                     Attrs := pool_attrs false [2; 2] [2; 2] [0; 0];
                     trace := [] |}
       = (EnforceNotMet msg,
          {| input_vars := {[ "X" := [1; 1; 4; 4] ]};
             output_vars := {[ "X@GRAD" := [] ]};
             Attrs := pool_attrs false [2; 2] [2; 2] [0; 0];
             trace := [] |})
       ∧ (msg = "Input(Mask) must not be null."
          ∨ msg = "Input(X) must not be null."
          ∨ msg = "Input(X@GRAD) should not be null.")).
Proof.
  split.
  - apply (Grad_InferShape_contract (grad_ctx [1; 1; 2; 2] [1; 1; 4; 4] [1; 1; 2; 2])).
    + exists [1; 1; 2; 2]. reflexivity.
    + reflexivity.
    + exists []. reflexivity.
  - apply (Grad_InferShape_contract
             {| input_vars := {[ "X" := [1; 1; 4; 4] ]};
                output_vars := {[ "X@GRAD" := [] ]};
                Attrs := pool_attrs false [2; 2] [2; 2] [0; 0];
                trace := [] |}).
    left. reflexivity.
Defined.

(** C10. Gradient shape inference reads no dimensions but those of X: two
    runs whose contexts agree on the shape of X set the same shape on the
    input gradient, whatever the shapes of Mask and of the output gradient
    are in each, and neither run compares those shapes with X's. *)
Theorem Grad_InferShape_reads_only_X ctx1 ctx2 dim :
  input_vars ctx1 !! "X" = Some dim →
  input_vars ctx2 !! "X" = Some dim →
  is_Some (input_vars ctx1 !! "Mask") →
  is_Some (input_vars ctx2 !! "Mask") →
  is_Some (output_vars ctx1 !! GradVarName "X") →
  is_Some (output_vars ctx2 !! GradVarName "X") →
  ∃ ctx1' ctx2',
    MaxPoolWithIndexOpGrad.InferShape ctx1 = (Ok (), ctx1')
    ∧ MaxPoolWithIndexOpGrad.InferShape ctx2 = (Ok (), ctx2')
    ∧ output_vars ctx1' !! GradVarName "X" = Some dim
    ∧ output_vars ctx2' !! GradVarName "X" = Some dim
    ∧ trace ctx1' = trace ctx1 ++ [EvGetInputDim "X"; EvSetOutputDim (GradVarName "X") dim]
    ∧ trace ctx2' = trace ctx2 ++ [EvGetInputDim "X"; EvSetOutputDim (GradVarName "X") dim].
Proof.
  change (GradVarName "X") with "X@GRAD".
  intros HX1 HX2 HM1 HM2 HdX1 HdX2. eexists _, _.
  split; [by apply Grad_InferShape_run|].
  split; [by apply Grad_InferShape_run|].
  cbn [output_vars trace]. by rewrite !lookup_insert_eq.
Qed.

(** A mask and an output gradient of the pooled shape in one run, and of
    shapes unrelated to X and to each other in the other. *)
Lemma Grad_InferShape_reads_only_X_witness :
  ∃ ctx1' ctx2',
    MaxPoolWithIndexOpGrad.InferShape (grad_ctx [1; 1; 2; 2] [1; 1; 4; 4] [1; 1; 2; 2]) = (Ok (), ctx1')
    ∧ MaxPoolWithIndexOpGrad.InferShape (grad_ctx [7] [1; 1; 4; 4] [3; 9; 9; 9; 9]) = (Ok (), ctx2')
    ∧ output_vars ctx1' !! GradVarName "X" = Some [1; 1; 4; 4]
    ∧ output_vars ctx2' !! GradVarName "X" = Some [1; 1; 4; 4]
    ∧ trace ctx1' = [] ++ [EvGetInputDim "X"; EvSetOutputDim (GradVarName "X") [1; 1; 4; 4]]
    ∧ trace ctx2' = [] ++ [EvGetInputDim "X"; EvSetOutputDim (GradVarName "X") [1; 1; 4; 4]].
Proof.
  apply (Grad_InferShape_reads_only_X
           (grad_ctx [1; 1; 2; 2] [1; 1; 4; 4] [1; 1; 2; 2])
           (grad_ctx [7] [1; 1; 4; 4] [3; 9; 9; 9; 9]) [1; 1; 4; 4]).
  - reflexivity.
  - reflexivity.
  - exists [1; 1; 2; 2]. reflexivity.
  - exists [7]. reflexivity.
  - exists []. reflexivity.
  - exists []. reflexivity.
Defined.

End GradShape.

(** ** Row-major offsets *)

Section RowMajor.

Import ForwardKernel.

Lemma flat_offset_acc dims coord acc :
  length dims = length coord →
  foldl (λ acc '(extent, x), acc * extent + x) acc (zip dims coord)
  = acc * product dims + flat_offset dims coord.
Proof.
  unfold flat_offset. revert coord acc.
  induction dims as [|extent dims IH]; intros [|x coord] acc Hlen;
    simplify_eq/=; [lia|].
  rewrite (IH coord (acc * extent + x)), (IH coord (0 * extent + x)) by done.
  lia.
Qed.

Lemma flat_offset_cons extent dims x coord :
  length dims = length coord →
  flat_offset (extent :: dims) (x :: coord)
  = x * product dims + flat_offset dims coord.
Proof.
  intros Hlen. unfold flat_offset at 1. cbn.
  by rewrite flat_offset_acc.
Qed.

Lemma in_bounds_length dims coord :
  in_bounds dims coord → length dims = length coord.
Proof. apply Forall2_length. Qed.

Lemma flat_offset_bounds dims coord :
  in_bounds dims coord → 0 <= flat_offset dims coord < product dims.
Proof.
  induction 1 as [|extent x dims coord Hx Hrest IH].
  - cbn. lia.
  - rewrite flat_offset_cons by by eapply Forall2_length.
    change (product (extent :: dims)) with (extent * product dims).
    nia.
Qed.

(** Decoding undoes the row-major encoding of a coordinate inside the
    array. *)
Lemma decode_flat_offset dims coord :
  in_bounds dims coord → decode dims (flat_offset dims coord) = coord.
Proof.
  induction 1 as [|extent x dims coord Hx Hrest IH]; [done|].
  pose proof (flat_offset_bounds _ _ Hrest) as Hb.
  rewrite flat_offset_cons by by eapply Forall2_length.
  cbn [decode]. f_equal.
  - rewrite Z.div_add_l by lia. rewrite Z.div_small; lia.
  - rewrite Z.add_comm, Z.mod_add by lia.
    rewrite Z.mod_small by lia. done.
Qed.

End RowMajor.

(** ** The scan for the maximum *)

Section Scan.

Import ForwardKernel.

Variable value : list Z → Z.

Lemma scan_snoc ps pos :
  scan value (ps ++ [pos]) = scan_step value (scan value ps) pos.
Proof. unfold scan. by rewrite foldl_app. Qed.

(** The scan returns the first position, in scan order, that carries the
    maximum of the window; it returns nothing only on an empty window. *)
Lemma scan_spec ps :
  match scan value ps with
  | None => ps = []
  | Some (v, pos) =>
      v = value pos
      ∧ ∃ before after,
          ps = before ++ pos :: after
          ∧ (∀ q, q ∈ before → value q < v)
          ∧ (∀ q, q ∈ after → value q <= v)
  end.
Proof.
  induction ps as [|pos ps IH] using rev_ind; [done|].
  rewrite scan_snoc.
  destruct (scan value ps) as [[v best]|]; cbn.
  - destruct IH as (-> & before & after & -> & Hbefore & Hafter).
    case_bool_decide as Hlt.
    + split; [done|]. exists (before ++ best :: after), [].
      split; [done|]. split.
      * intros q [Hq | [-> | Hq]%elem_of_cons]%elem_of_app.
        -- specialize (Hbefore q Hq). lia.
        -- done.
        -- specialize (Hafter q Hq). lia.
      * intros q Hq. by apply elem_of_nil in Hq.
    + split; [done|]. exists before, (after ++ [pos]).
      split; [by rewrite <- app_assoc|]. split; [done|].
      intros q [Hq | ->%list_elem_of_singleton]%elem_of_app.
      * by apply Hafter.
      * lia.
  - subst ps. split; [done|]. exists [], [].
    split; [done|]. split; intros q Hq; by apply elem_of_nil in Hq.
Qed.

End Scan.

(** ** Scan order *)

Section ScanOrder.

Import ForwardKernel.

Lemma positions_cons r rs :
  positions (r :: rs) = r ≫= λ x, (λ pos, x :: pos) <$> positions rs.
Proof. done. Qed.

(** The scan visits exactly the coordinates that lie in the range of every
    axis. *)
Lemma elem_of_positions ranges pos :
  pos ∈ positions ranges ↔ Forall2 (λ r x, x ∈ r) ranges pos.
Proof.
  revert pos. induction ranges as [|r rs IH]; intros pos.
  - cbn. rewrite list_elem_of_singleton. split.
    + by intros ->.
    + by intros ->%Forall2_nil_inv_l.
  - rewrite positions_cons, list_elem_of_bind. split.
    + intros (x & (tail & -> & Htail)%list_elem_of_fmap & Hx).
      apply Forall2_cons. split; [done | by apply IH].
    + intros (x & tail & Hx & Htail & ->)%Forall2_cons_inv_l.
      exists x. split; [|done].
      apply list_elem_of_fmap. exists tail. split; [done | by apply IH].
Qed.

Lemma elem_of_coords dims coord :
  coord ∈ coords dims ↔ in_bounds dims coord.
Proof.
  unfold coords, in_bounds. rewrite elem_of_positions, Forall2_fmap_l.
  split; intros H; eapply Forall2_impl; try exact H;
    intros extent x; cbn; rewrite elem_of_seqZ; lia.
Qed.

(** Every position of a clipped window lies inside the input. *)
Lemma window_positions_in_bounds inDims o cfg pos :
  length o = length inDims →
  length (windowSize cfg) = length inDims →
  length (stride cfg) = length inDims →
  length (padding cfg) = length inDims →
  pos ∈ positions (window_ranges inDims o cfg) →
  in_bounds inDims pos.
Proof.
  intros Ho Hk Hs Hp Hpos. unfold in_bounds.
  apply elem_of_positions in Hpos. unfold window_ranges in Hpos.
  apply Forall2_fmap_l in Hpos.
  rewrite <- (fst_zip inDims
    (zip o (zip (windowSize cfg) (zip (stride cfg) (padding cfg)))))
    by (rewrite !length_zip; lia).
  apply Forall2_fmap_l.
  eapply Forall2_impl; [exact Hpos|].
  intros (d & x & k & s & p) y. cbn. unfold valid_range.
  rewrite elem_of_seqZ. lia.
Qed.

(** Blocks of equal length laid end to end. *)
Lemma length_bind_blocks {A B} (f : A → list B) (l : list A) (len : nat) :
  (∀ a, a ∈ l → length (f a) = len) →
  length (l ≫= f) = (length l * len)%nat.
Proof.
  induction l as [|a l IH]; intros Hlen; [done|].
  rewrite bind_cons, length_app, IH, (Hlen a).
  - done.
  - by left.
  - intros b Hb. apply Hlen. by right.
Qed.

Lemma lookup_bind_blocks {A B} (f : A → list B) (l : list A) (len i j : nat) a :
  (∀ a, a ∈ l → length (f a) = len) →
  l !! i = Some a → (j < len)%nat →
  (l ≫= f) !! (i * len + j)%nat = f a !! j.
Proof.
  revert i. induction l as [|a0 l IH]; intros i Hlen Hi Hj; [done|].
  rewrite bind_cons. destruct i as [|i].
  - injection Hi as ->. rewrite lookup_app_l; [done|].
    rewrite (Hlen a); [lia | by left].
  - rewrite lookup_app_r by (rewrite (Hlen a0); [lia | by left]).
    rewrite (Hlen a0) by by left.
    replace (S i * len + j - len)%nat with (i * len + j)%nat by lia.
    apply IH; [|done|done]. intros b Hb. apply Hlen. by right.
Qed.

Lemma length_coords dims :
  Forall (λ extent, 0 <= extent) dims →
  Z.of_nat (length (coords dims)) = product dims.
Proof.
  unfold coords. induction 1 as [|extent dims Hextent Hdims IH]; [done|].
  rewrite fmap_cons, positions_cons.
  rewrite (length_bind_blocks _ _ (length (positions (seqZ 0 <$> dims))))
    by (intros; by rewrite length_fmap).
  rewrite length_seqZ. change (product (extent :: dims)) with (extent * product dims).
  lia.
Qed.

(** The row-major offset of a coordinate is its rank in the row-major
    enumeration. *)
Lemma coords_lookup dims coord :
  in_bounds dims coord →
  coords dims !! Z.to_nat (flat_offset dims coord) = Some coord.
Proof.
  induction 1 as [|extent x dims coord Hx Hrest IH]; [done|].
  assert (Forall (λ extent, 0 <= extent) dims) as Hnonneg.
  { clear -Hrest. induction Hrest; constructor; [lia | done]. }
  pose proof (length_coords dims Hnonneg) as Hlen.
  pose proof (flat_offset_bounds _ _ Hrest) as Hb.
  rewrite flat_offset_cons by by eapply Forall2_length.
  unfold coords in *. rewrite fmap_cons, positions_cons.
  replace (Z.to_nat (x * product dims + flat_offset dims coord))
    with (Z.to_nat x * length (positions (seqZ 0 <$> dims))
          + Z.to_nat (flat_offset dims coord))%nat by nia.
  rewrite (lookup_bind_blocks _ _ _ _ _ x).
  - by rewrite list_lookup_fmap, IH.
  - intros. by rewrite length_fmap.
  - rewrite lookup_seqZ_lt by lia. f_equal. lia.
  - lia.
Qed.

End ScanOrder.

(** ** The forward kernel *)

Section ForwardKernelClaims.

Import ForwardKernel.

Lemma collect_all_Ok {A} (l : list (outcome A)) :
  (∀ o, o ∈ l → ∃ a, o = Ok a) → ∃ cells, collect l = Ok cells.
Proof.
  induction l as [|o l IH]; intros Hall; [by exists []|].
  destruct (Hall o) as [a ->]; [by left|].
  destruct IH as [cells Hcells]; [intros o Ho; apply Hall; by right|].
  exists (a :: cells). cbn. by rewrite Hcells.
Qed.

Lemma collect_lookup {A} (l : list (outcome A)) cells i a :
  collect l = Ok cells → l !! i = Some (Ok a) → cells !! i = Some a.
Proof.
  revert cells i. induction l as [|o l IH]; intros cells i Hcollect Hi; [done|].
  cbn in Hcollect. destruct o as [a0| |]; cbn in Hcollect; try done.
  destruct (collect l) as [rest| |]; cbn in Hcollect; try done.
  injection Hcollect as <-. destruct i as [|i].
  - by injection Hi as ->.
  - exact (IH rest i eq_refl Hi).
Qed.

(** What the kernel computes for one output element. *)
Lemma pool_at_spec X cfg n c o :
  length o = length (drop 2 (shape X)) →
  length (windowSize cfg) = length (drop 2 (shape X)) →
  length (stride cfg) = length (drop 2 (shape X)) →
  length (padding cfg) = length (drop 2 (shape X)) →
  positions (window_ranges (drop 2 (shape X)) o cfg) ≠ [] →
  ∃ pos before after,
    pool_at X cfg n c o
    = Ok (get X (n :: c :: pos), flat_offset (drop 2 (shape X)) pos)
    ∧ positions (window_ranges (drop 2 (shape X)) o cfg) = before ++ pos :: after
    ∧ in_bounds (drop 2 (shape X)) pos
    ∧ (∀ q, q ∈ before → get X (n :: c :: q) < get X (n :: c :: pos))
    ∧ (∀ q, q ∈ after → get X (n :: c :: q) <= get X (n :: c :: pos)).
Proof.
  intros Ho Hk Hs Hp Hnonempty. unfold pool_at. cbn zeta.
  pose proof (scan_spec (λ pos, get X (n :: c :: pos))
                (positions (window_ranges (drop 2 (shape X)) o cfg))) as Hscan.
  destruct (scan _ _) as [[v pos]|]; [|done].
  destruct Hscan as (-> & before & after & Hsplit & Hbefore & Hafter).
  exists pos, before, after. repeat split; try done.
  apply (window_positions_in_bounds _ o cfg); try done.
  rewrite Hsplit. apply elem_of_app. right. by left.
Qed.

(** C8. For every batch index n, channel c and output coordinate o, the
    kernel writes to Out[n,c,o] the maximum of X over the clipped window
    and to Mask[n,c,o] the row-major offset, within the (n,c) slice of X, of
    a position that carries it: that position is in the window, every
    position the scan visits before it is strictly smaller (so the first
    maximum wins) and every later one is no larger, and reading X at the
    decoded mask gives Out[n,c,o]. The kernel completes whenever no window
    of the output is empty. *)
Theorem ForwardKernel_max_with_index X cfg outDims N C inDims :
  shape X = N :: C :: inDims →
  length (windowSize cfg) = length inDims →
  length (stride cfg) = length inDims →
  length (padding cfg) = length inDims →
  length outDims = length inDims →
  (∀ o, in_bounds outDims o → positions (window_ranges inDims o cfg) ≠ []) →
  ∃ Out Mask,
    ForwardKernel X cfg outDims = Ok (Out, Mask)
    ∧ shape Out = N :: C :: outDims
    ∧ shape Mask = N :: C :: outDims
    ∧ ∀ n c o,
        0 <= n < N → 0 <= c < C → in_bounds outDims o →
        ∃ pos before after,
          positions (window_ranges inDims o cfg) = before ++ pos :: after
          ∧ get Out (n :: c :: o) = get X (n :: c :: pos)
          ∧ (∀ q, q ∈ before → get X (n :: c :: q) < get Out (n :: c :: o))
          ∧ (∀ q, q ∈ after → get X (n :: c :: q) <= get Out (n :: c :: o))
          ∧ get Mask (n :: c :: o) = flat_offset inDims pos
          ∧ decode inDims (get Mask (n :: c :: o)) = pos
          ∧ get X (n :: c :: decode inDims (get Mask (n :: c :: o)))
            = get Out (n :: c :: o).
Proof.
  intros Hshape Hk Hs Hp Hout Hnonempty.
  assert (drop 2 (shape X) = inDims) as Hdrop by by rewrite Hshape.
  unfold ForwardKernel. rewrite Hshape.
  change (take 2 (N :: C :: inDims) ++ outDims) with (N :: C :: outDims).
  cbn zeta.
  set (cell := λ coord : list Z,
         match coord with
         | n :: c :: o => pool_at X cfg n c o
         | _ => Undefined
         end).
  assert (∀ n c o, in_bounds outDims o →
            ∃ pos before after,
              cell (n :: c :: o)
              = Ok (get X (n :: c :: pos), flat_offset inDims pos)
              ∧ positions (window_ranges inDims o cfg) = before ++ pos :: after
              ∧ in_bounds inDims pos
              ∧ (∀ q, q ∈ before → get X (n :: c :: q) < get X (n :: c :: pos))
              ∧ (∀ q, q ∈ after → get X (n :: c :: q) <= get X (n :: c :: pos)))
    as Hcell.
  { intros n c o Ho. pose proof (in_bounds_length _ _ Ho) as Hlen.
    rewrite <- Hdrop. apply pool_at_spec; rewrite Hdrop; try lia.
    by apply Hnonempty. }
  destruct (collect_all_Ok (cell <$> coords (N :: C :: outDims)))
    as [cells Hcells].
  { intros o' (coord & -> & Hcoord)%list_elem_of_fmap.
    apply elem_of_coords in Hcoord.
    apply Forall2_cons_inv_l in Hcoord as (n & tail & _ & Htail & ->).
    apply Forall2_cons_inv_l in Htail as (c & o & _ & Ho & ->).
    destruct (Hcell n c o Ho) as (pos & _ & _ & -> & _). by eexists. }
  rewrite Hcells. cbn.
  eexists _, _. split; [done|]. split; [done|]. split; [done|].
  intros n c o Hn Hc Ho.
  destruct (Hcell n c o Ho)
    as (pos & before & after & Hpool & Hsplit & Hpos & Hbefore & Hafter).
  assert (in_bounds (N :: C :: outDims) (n :: c :: o)) as Hnco.
  { by repeat (apply Forall2_cons; split). }
  assert (cells !! Z.to_nat (flat_offset (N :: C :: outDims) (n :: c :: o))
          = Some (get X (n :: c :: pos), flat_offset inDims pos)) as Hlookup.
  { apply (collect_lookup _ _ _ _ Hcells).
    by rewrite list_lookup_fmap, (coords_lookup _ _ Hnco), <- Hpool. }
  assert (get {| shape := N :: C :: outDims; elements := cells.*1 |} (n :: c :: o)
          = get X (n :: c :: pos)) as HOut.
  { unfold get at 1. cbn [shape elements].
    by rewrite list_lookup_fmap, Hlookup. }
  assert (get {| shape := N :: C :: outDims; elements := cells.*2 |} (n :: c :: o)
          = flat_offset inDims pos) as HMask.
  { unfold get at 1. cbn [shape elements].
    by rewrite list_lookup_fmap, Hlookup. }
  exists pos, before, after. rewrite HOut, HMask.
  rewrite (decode_flat_offset _ _ Hpos). done.
Qed.

Example ForwardKernel_grid_4x4 :
  ForwardKernel grid_4x4 pool_2x2 [2; 2]
  = Ok ({| shape := [1; 1; 2; 2]; elements := [6; 8; 9; 3] |},
        {| shape := [1; 1; 2; 2]; elements := [5; 7; 8; 10] |}).
Proof. reflexivity. Qed.

Lemma ForwardKernel_max_with_index_witness :
  ∃ Out Mask,
    ForwardKernel grid_4x4 pool_2x2 [2; 2] = Ok (Out, Mask)
    ∧ shape Out = [1; 1; 2; 2]
    ∧ shape Mask = [1; 1; 2; 2]
    ∧ ∀ n c o,
        0 <= n < 1 → 0 <= c < 1 → in_bounds [2; 2] o →
        ∃ pos before after,
          positions (window_ranges [4; 4] o pool_2x2) = before ++ pos :: after
          ∧ get Out (n :: c :: o) = get grid_4x4 (n :: c :: pos)
          ∧ (∀ q, q ∈ before → get grid_4x4 (n :: c :: q) < get Out (n :: c :: o))
          ∧ (∀ q, q ∈ after → get grid_4x4 (n :: c :: q) <= get Out (n :: c :: o))
          ∧ get Mask (n :: c :: o) = flat_offset [4; 4] pos
          ∧ decode [4; 4] (get Mask (n :: c :: o)) = pos
          ∧ get grid_4x4 (n :: c :: decode [4; 4] (get Mask (n :: c :: o)))
            = get Out (n :: c :: o).
Proof.
  apply (ForwardKernel_max_with_index grid_4x4 pool_2x2 [2; 2] 1 1 [4; 4]).
  - reflexivity.
  - reflexivity.
  - reflexivity.
  - reflexivity.
  - reflexivity.
  - intros o Ho. apply elem_of_coords in Ho. vm_compute in Ho.
    repeat (apply elem_of_cons in Ho as [-> | Ho]; [vm_compute; discriminate|]).
    by apply elem_of_nil in Ho.
Defined.

End ForwardKernelClaims.


(** * Further properties of the source *)

(** ** The forward run in one equation *)

Section ForwardRun.

Import MaxPoolWithIndexOp.

(** With the three references present, [InferShape] reads the dimensions of
    [X], computes [infer_output_shape] and, if that returns, sets the shape. *)
Lemma InferShape_unfold ctx dims :
  input_vars ctx !! "X" = Some dims →
  is_Some (output_vars ctx !! "Out") →
  is_Some (output_vars ctx !! "Mask") →
  InferShape ctx
  = match infer_output_shape dims (Attrs ctx) with
    | Ok shape => (Ok (), set_output_dims shape ctx)
    | EnforceNotMet msg => (EnforceNotMet msg, log (EvGetInputDim "X") ctx)
    | Undefined => (Undefined, log (EvGetInputDim "X") ctx)
    end.
Proof.
  intros HX HOut HMask.
  unfold InferShape.
  cbv [mbind InferShapeM_bind HasInput HasOutput PADDLE_ENFORCE GetInputDim
       GetAttr lift SetOutputDim].
  rewrite !bool_decide_eq_true_2 by eauto.
  rewrite HX. cbn [log Attrs].
  unfold infer_output_shape, enforce. cbv [mbind outcome_bind].
  destruct (bool_decide (length dims = 4%nat) || bool_decide (length dims = 5%nat));
    [|done].
  destruct (GlobalPoolingAdjustment _ _ _ _ _) as [[[k s] p]|msg|]; [|done|done].
  destruct (size_t_sub (length dims) (length k) =? 2); [|done].
  destruct (bool_decide (length k = length s)); [|done].
  destruct (bool_decide (length k = length p)); [|done].
  destruct (vec_get dims 0) as [n|msg|]; [|done|done].
  destruct (vec_get dims 1) as [c|msg|]; [|done|done].
  destruct (for_loop _ _ _ _) as [shape|msg|]; [|done|done].
  unfold set_output_dims, log. cbn [output_vars input_vars Attrs trace].
  destruct HOut as [out ->]. cbn [output_vars input_vars Attrs trace].
  rewrite lookup_insert_ne by done.
  destruct HMask as [mask ->].
  by rewrite <- !app_assoc.
Qed.

End ForwardRun.

(** ** The arithmetic of [OutputSizeMaxPool] *)

Section OutputSizeFacts.

(** A returned size is the shape law, computed without overflow and with a
    divisor that is not zero. *)
Lemma OutputSizeMaxPool_Ok_inv d k p s o :
  OutputSizeMaxPool d k p s = Ok o →
  s ≠ 0 ∧ o = (d - k + 2 * p) ÷ s + 1 ∧ Int.in_range o = true.
Proof.
  unfold OutputSizeMaxPool, Int.sub, Int.mul, Int.add, Int.div, Int.checked.
  destruct (Int.in_range (d - k)); cbn; [|done].
  destruct (Int.in_range (2 * p)); cbn; [|done].
  destruct (Int.in_range (d - k + 2 * p)); cbn; [|done].
  destruct (Z.eqb_spec s 0) as [|Hs]; cbn; [done|].
  destruct (Int.in_range ((d - k + 2 * p) ÷ s)); cbn; [|done].
  destruct (Int.in_range ((d - k + 2 * p) ÷ s + 1)) eqn:Ho; cbn; [|done].
  by intros [= <-].
Qed.

Lemma OutputSizeMaxPool_zero_stride d k p :
  OutputSizeMaxPool d k p 0 = Undefined.
Proof.
  unfold OutputSizeMaxPool, Int.sub, Int.mul, Int.add, Int.div, Int.checked.
  destruct (Int.in_range (d - k)); cbn; [|done].
  destruct (Int.in_range (2 * p)); cbn; [|done].
  by destruct (Int.in_range (d - k + 2 * p)).
Qed.

(** Truncating division by a positive stride. *)
Lemma quot_pos_bounds a s :
  0 < s →
  (0 <= a → s * (a ÷ s) <= a < s * (a ÷ s) + s)
  ∧ (a <= 0 → s * (a ÷ s) - s < a <= s * (a ÷ s)).
Proof.
  intros Hs. pose proof (Z.quot_rem' a s) as Hqr. split; intros Ha.
  - pose proof (Z.rem_bound_pos a s Ha Hs). lia.
  - pose proof (Z.rem_bound_pos_neg a s Hs Ha). lia.
Qed.

(** X1. With a positive stride, the size that [OutputSizeMaxPool] returns is
    zero or negative exactly when the padded input is shorter than the window
    by a whole stride or more; a window that overshoots the padded input by
    less than a stride still counts as one output element, because the
    division truncates toward zero. *)
Theorem OutputSizeMaxPool_nonpositive_iff d k p s o :
  0 < s →
  OutputSizeMaxPool d k p s = Ok o →
  (o <= 0 ↔ d + 2 * p <= k - s)
  ∧ (k - s < d + 2 * p < k → o = 1).
Proof.
  intros Hs (_ & -> & _)%OutputSizeMaxPool_Ok_inv.
  destruct (quot_pos_bounds (d - k + 2 * p) s Hs) as [Hpos Hneg].
  split.
  - split; intros H.
    + destruct (decide (0 <= d - k + 2 * p)) as [Hge|Hlt].
      * specialize (Hpos Hge). nia.
      * specialize (Hneg ltac:(lia)). nia.
    + specialize (Hneg ltac:(lia)). nia.
  - intros H. specialize (Hneg ltac:(lia)).
    assert ((d - k + 2 * p) ÷ s = 0) as -> by nia. done.
Qed.

Lemma OutputSizeMaxPool_nonpositive_iff_witness :
  ((-2 <= 0 ↔ 2 + 2 * 0 <= 5 - 1) ∧ (5 - 1 < 2 + 2 * 0 < 5 → -2 = 1))
  ∧ ((1 <= 0 ↔ 2 + 2 * 0 <= 3 - 2) ∧ (3 - 2 < 2 + 2 * 0 < 3 → 1 = 1)).
Proof.
  split.
  - apply (OutputSizeMaxPool_nonpositive_iff 2 5 0 1 (-2)); [lia | reflexivity].
  - apply (OutputSizeMaxPool_nonpositive_iff 2 3 0 2 1); [lia | reflexivity].
Defined.

(** X2. With a positive stride and a window no longer than the padded input,
    the returned size is the number of windows that fit: it is at least one,
    the last window ends inside the padded input, and a further window would
    not. *)
Theorem OutputSizeMaxPool_windows_fit d k p s o :
  0 < s →
  k <= d + 2 * p →
  OutputSizeMaxPool d k p s = Ok o →
  1 <= o ∧ (o - 1) * s + k <= d + 2 * p < o * s + k.
Proof.
  intros Hs Hfit (_ & -> & _)%OutputSizeMaxPool_Ok_inv.
  destruct (quot_pos_bounds (d - k + 2 * p) s Hs) as [Hpos _].
  specialize (Hpos ltac:(lia)).
  assert (0 <= (d - k + 2 * p) ÷ s) by (apply Z.quot_pos; lia).
  nia.
Qed.

Lemma OutputSizeMaxPool_windows_fit_witness :
  1 <= 4 ∧ (4 - 1) * 2 + 3 <= 7 + 2 * 1 < 4 * 2 + 3.
Proof.
  apply (OutputSizeMaxPool_windows_fit 7 3 1 2 4); [lia | lia | reflexivity].
Defined.

(** X3. With a positive stride the returned size grows with the input extent
    and the padding and shrinks with the window. *)
Theorem OutputSizeMaxPool_monotone d d' k k' p p' s o o' :
  0 < s →
  d <= d' → k' <= k → p <= p' →
  OutputSizeMaxPool d k p s = Ok o →
  OutputSizeMaxPool d' k' p' s = Ok o' →
  o <= o'.
Proof.
  intros Hs Hd Hk Hp (_ & -> & _)%OutputSizeMaxPool_Ok_inv
    (_ & -> & _)%OutputSizeMaxPool_Ok_inv.
  apply Z.add_le_mono_r, Z.quot_le_mono; lia.
Qed.

Lemma OutputSizeMaxPool_monotone_witness : 1 <= 5.
Proof.
  apply (OutputSizeMaxPool_monotone 4 9 3 2 0 1 2 1 5);
    [lia | lia | lia | lia | reflexivity | reflexivity].
Defined.

(** X4. Stride 1 with an odd window of 2 * padding + 1 keeps the extent. *)
Theorem OutputSizeMaxPool_same_padding d p :
  0 <= p →
  Int.in_range d = true →
  Int.in_range (2 * p) = true →
  Int.in_range (d - (2 * p + 1)) = true →
  OutputSizeMaxPool d (2 * p + 1) p 1 = Ok d.
Proof.
  intros Hp Hd H2p Hsub.
  rewrite OutputSizeMaxPool_defined.
  - f_equal. rewrite Z.quot_1_r. lia.
  - unfold no_overflow. rewrite Hsub, H2p. cbn.
    replace (d - (2 * p + 1) + 2 * p) with (d - 1) by lia.
    rewrite Z.quot_1_r. replace (d - 1 + 1) with d by lia. rewrite Hd.
    apply in_range_bounds in Hd, Hsub.
    assert (Int.in_range (d - 1) = true) as -> by (apply in_range_bounds; lia).
    done.
Qed.

Lemma OutputSizeMaxPool_same_padding_witness :
  OutputSizeMaxPool 16 (2 * 2 + 1) 2 1 = Ok 16.
Proof.
  apply (OutputSizeMaxPool_same_padding 16 2); [lia | reflexivity..].
Defined.

End OutputSizeFacts.

(** ** What a forward run does to the context *)

Section ForwardContext.

Import MaxPoolWithIndexOp.

(** Every run either stops at a missing reference with the context untouched,
    or reads the dimensions of [X] and goes by [infer_output_shape]. *)
Lemma InferShape_cases ctx :
  (∃ msg,
     InferShape ctx = (EnforceNotMet msg, ctx)
     ∧ (msg = "X(Input) of Pooling should not be null."
        ∨ msg = "Out(Output) of Pooling should not be null."
        ∨ msg = "Mask(Output) of Pooling should not be null."))
  ∨ (∃ dims,
       input_vars ctx !! "X" = Some dims
       ∧ is_Some (output_vars ctx !! "Out")
       ∧ is_Some (output_vars ctx !! "Mask")
       ∧ InferShape ctx
         = match infer_output_shape dims (Attrs ctx) with
           | Ok shape => (Ok (), set_output_dims shape ctx)
           | EnforceNotMet msg => (EnforceNotMet msg, log (EvGetInputDim "X") ctx)
           | Undefined => (Undefined, log (EvGetInputDim "X") ctx)
           end).
Proof.
  destruct (input_vars ctx !! "X") as [dims|] eqn:HX.
  2: { left. apply InferShape_missing. by left. }
  destruct (output_vars ctx !! "Out") as [out|] eqn:HOut.
  2: { left. apply InferShape_missing. by right; left. }
  destruct (output_vars ctx !! "Mask") as [mask|] eqn:HMask.
  2: { left. apply InferShape_missing. by right; right. }
  right. exists dims.
  assert (is_Some (output_vars ctx !! "Out")) as HOut' by by rewrite HOut.
  assert (is_Some (output_vars ctx !! "Mask")) as HMask' by by rewrite HMask.
  repeat split; try done. by apply InferShape_unfold.
Qed.

(** A loop that returns kept every invariant that its turns keep. *)
Lemma for_loop_Ok_invariant {St} (body : nat → St → outcome St)
    (I : nat → St → Prop) first count s s' :
  for_loop body first count s = Ok s' →
  I first s →
  (∀ i s s', body i s = Ok s' → I i s → I (S i) s') →
  I (first + count)%nat s'.
Proof.
  intros Hrun H0 Hstep. revert first s Hrun H0.
  induction count as [|count IH]; intros first s Hrun H0.
  - injection Hrun as <-. by rewrite Nat.add_0_r.
  - cbn in Hrun. destruct (body first s) as [s1| |] eqn:Hb; cbn in Hrun; try done.
    rewrite <- Nat.add_succ_comm. apply (IH (S first) s1); [done|].
    by apply (Hstep first s).
Qed.

(** A shape that [infer_output_shape] returns has the rank of the input, 4 or
    5, and starts with its batch size and channel count. *)
Lemma infer_output_shape_Ok_inv dims a shape :
  infer_output_shape dims a = Ok shape →
  ∃ n c spatial outs,
    dims = n :: c :: spatial
    ∧ (length spatial = 2 ∨ length spatial = 3)%nat
    ∧ shape = n :: c :: outs
    ∧ length outs = length spatial.
Proof.
  unfold infer_output_shape, enforce. cbv [mbind outcome_bind].
  destruct (bool_decide (length dims = 4%nat) || bool_decide (length dims = 5%nat))
    eqn:Hrank; [|done].
  destruct (GlobalPoolingAdjustment _ _ _ _ _) as [[[k s] p]|msg|]; [|done|done].
  destruct (size_t_sub (length dims) (length k) =? 2) eqn:Hsize; [|done].
  destruct (bool_decide (length k = length s)); [|done].
  destruct (bool_decide (length k = length p)); [|done].
  destruct dims as [|n [|c spatial]];
    [by destruct (length k) | by destruct (length k) |].
  change (vec_get (n :: c :: spatial) 0) with (Ok n).
  change (vec_get (n :: c :: spatial) 1) with (Ok c).
  intros Hloop.
  apply (for_loop_Ok_invariant _
    (λ i shape, ∃ outs, shape = n :: c :: outs ∧ length outs = i
                        ∧ (i ≤ length spatial)%nat)) in Hloop.
  - destruct Hloop as (outs & -> & Houts & Hle). cbn in Houts, Hle.
    apply orb_true_iff in Hrank. cbn [length] in Hrank, Hsize.
    rewrite !bool_decide_eq_true in Hrank.
    apply Z.eqb_eq in Hsize. unfold size_t_sub in Hsize.
    rewrite Z.mod_small in Hsize by lia.
    exists n, c, spatial, outs. repeat split; try done; lia.
  - exists []. repeat split. cbn. lia.
  - intros i shape0 shape1 Hstep (outs & -> & Houts & Hle).
    unfold output_step in Hstep.
    destruct (vec_get (n :: c :: spatial) (i + 2)) as [d| |] eqn:Hd;
      cbn in Hstep; try done.
    unfold vec_get in Hd.
    destruct ((n :: c :: spatial) !! (i + 2)%nat) as [d'|] eqn:Hd'; [|done].
    apply lookup_lt_Some in Hd'. cbn [length] in Hd'.
    destruct (vec_get k i); cbn in Hstep; try done.
    destruct (vec_get p i); cbn in Hstep; try done.
    destruct (vec_get s i); cbn in Hstep; try done.
    destruct (OutputSizeMaxPool _ _ _ _) as [o| |]; cbn in Hstep; try done.
    injection Hstep as <-. exists (outs ++ [o]).
    split; [done|]. split; [|lia].
    rewrite length_app. cbn. lia.
Qed.

Lemma infer_output_shape_messages dims a msg :
  infer_output_shape dims a = EnforceNotMet msg →
  msg = "Pooling intput should be 4-D or 5-D tensor."
  ∨ msg = "Input size and pooling size should be consistent."
  ∨ msg = "Strides size and pooling size should be the same."
  ∨ msg = "Paddings size and pooling size should be the same.".
Proof.
  unfold infer_output_shape, enforce. cbv [mbind outcome_bind].
  destruct (_ || _); [|intros [= <-]; by left].
  destruct (GlobalPoolingAdjustment _ _ _ _ _) as [[[k s] p]|msg'|] eqn:Hadj;
    [| by apply GlobalPoolingAdjustment_no_enforce in Hadj | done].
  destruct (_ =? _); [|intros [= <-]; by right; left].
  destruct (bool_decide (length k = length s));
    [|intros [= <-]; by right; right; left].
  destruct (bool_decide (length k = length p));
    [|intros [= <-]; by right; right; right].
  unfold vec_get.
  destruct (dims !! 0%nat); [|done]. destruct (dims !! 1%nat); [|done].
  intros Hloop. exfalso.
  eapply for_loop_no_enforce; [|exact Hloop].
  intros i shape. apply output_step_no_enforce.
Qed.

(** X5. Whatever the outcome, a forward run leaves the input variables and
    the attributes as they were and sets the dimensions of no output other
    than Out and Mask. *)
Theorem InferShape_frame ctx name :
  name ≠ "Out" → name ≠ "Mask" →
  input_vars (snd (InferShape ctx)) = input_vars ctx
  ∧ Attrs (snd (InferShape ctx)) = Attrs ctx
  ∧ output_vars (snd (InferShape ctx)) !! name = output_vars ctx !! name.
Proof.
  intros HnOut HnMask.
  destruct (InferShape_cases ctx)
    as [(msg & -> & _) | (dims & _ & _ & _ & ->)]; [done|].
  destruct (infer_output_shape dims (Attrs ctx)); [|done|done].
  cbn. by rewrite !lookup_insert_ne.
Qed.

Lemma InferShape_frame_witness :
  let ctx := {| input_vars := {[ "X" := [1; 1; 4; 4] ]};
                output_vars := {[ "Out" := []; "Mask" := []; "Other" := [7] ]};
                Attrs := pool_attrs false [2; 2] [2; 2] [0; 0];
                trace := [] |} in
  input_vars (snd (InferShape ctx)) = input_vars ctx
  ∧ Attrs (snd (InferShape ctx)) = Attrs ctx
  ∧ output_vars (snd (InferShape ctx)) !! "Other" = output_vars ctx !! "Other".
Proof.
  intros ctx. apply (InferShape_frame ctx "Other"); discriminate.
Defined.

(** X6. A forward run that does not return normally has set no output
    dimension: every configuration error, and every undefined step, comes
    before the first [SetOutputDim]; at most the dimensions of X were read. *)
Theorem InferShape_failure_sets_nothing ctx :
  fst (InferShape ctx) ≠ Ok () →
  output_vars (snd (InferShape ctx)) = output_vars ctx
  ∧ (trace (snd (InferShape ctx)) = trace ctx
     ∨ trace (snd (InferShape ctx)) = trace ctx ++ [EvGetInputDim "X"]).
Proof.
  intros Hfail.
  destruct (InferShape_cases ctx)
    as [(msg & Hrun & _) | (dims & _ & _ & _ & Hrun)];
    rewrite Hrun in Hfail |- *.
  - split; [done | by left].
  - destruct (infer_output_shape dims (Attrs ctx)); [done| |];
      (split; [done | by right]).
Qed.

Lemma InferShape_failure_sets_nothing_witness :
  let ctx := forward_ctx [1; 1; 4; 4] (pool_attrs false [2; 2] [2; 2; 2] [0; 0]) in
  output_vars (snd (InferShape ctx)) = output_vars ctx
  ∧ (trace (snd (InferShape ctx)) = trace ctx
     ∨ trace (snd (InferShape ctx)) = trace ctx ++ [EvGetInputDim "X"]).
Proof.
  intros ctx. apply (InferShape_failure_sets_nothing ctx). discriminate.
Defined.

End ForwardContext.

(** ** What the output shape depends on *)

Section ShapeDependence.

Import MaxPoolWithIndexOp.

Lemma for_loop_ext {St} (body body' : nat → St → outcome St) first count s :
  (∀ i s, body i s = body' i s) →
  for_loop body first count s = for_loop body' first count s.
Proof.
  intros Hext. revert first s.
  induction count as [|count IH]; intros first s; [done|].
  cbn. rewrite Hext. destruct (body' first s); cbn; [apply IH | done | done].
Qed.

(** The loop that fills [output_shape] only appends to it. *)
Lemma output_step_prefix dims k p s i prefix acc :
  output_step dims k p s i (prefix ++ acc)
  = (r ← output_step dims k p s i acc; mret (prefix ++ r)).
Proof.
  unfold output_step.
  destruct (vec_get dims (i + 2)); cbn; [|done|done].
  destruct (vec_get k i); cbn; [|done|done].
  destruct (vec_get p i); cbn; [|done|done].
  destruct (vec_get s i); cbn; [|done|done].
  destruct (OutputSizeMaxPool _ _ _ _); cbn; [|done|done].
  by rewrite <- app_assoc.
Qed.

Lemma output_loop_prefix dims k p s first count prefix acc :
  for_loop (output_step dims k p s) first count (prefix ++ acc)
  = (r ← for_loop (output_step dims k p s) first count acc; mret (prefix ++ r)).
Proof.
  revert first acc. induction count as [|count IH]; intros first acc; [done|].
  cbn. rewrite output_step_prefix.
  destruct (output_step dims k p s first acc); cbn; [apply IH | done | done].
Qed.

Lemma same_spatial_lookup dims1 dims2 i :
  same_spatial_as_int dims1 dims2 →
  Int.static_cast <$> dims1 !! (i + 2)%nat = Int.static_cast <$> dims2 !! (i + 2)%nat.
Proof.
  intros [_ Hcast].
  apply (f_equal (λ l, l !! i)) in Hcast.
  by rewrite !list_lookup_fmap, !lookup_drop, !(Nat.add_comm 2) in Hcast.
Qed.

Lemma global_step_same_spatial dims1 dims2 i vs :
  same_spatial_as_int dims1 dims2 →
  global_step dims1 i vs = global_step dims2 i vs.
Proof.
  intros Hsame. pose proof (same_spatial_lookup _ _ i Hsame) as Hi.
  unfold global_step, vec_get. destruct vs as [k p].
  destruct (vec_set p i 0); cbn; [|done|done].
  destruct (dims1 !! (i + 2)%nat), (dims2 !! (i + 2)%nat); simplify_eq/=; try done.
  by rewrite Hi.
Qed.

Lemma output_step_same_spatial dims1 dims2 k p s i shape :
  same_spatial_as_int dims1 dims2 →
  output_step dims1 k p s i shape = output_step dims2 k p s i shape.
Proof.
  intros Hsame. pose proof (same_spatial_lookup _ _ i Hsame) as Hi.
  unfold output_step, vec_get.
  destruct (dims1 !! (i + 2)%nat), (dims2 !! (i + 2)%nat); simplify_eq/=; try done.
  by rewrite Hi.
Qed.

Lemma GlobalPoolingAdjustment_same_spatial dims1 dims2 global k s p :
  same_spatial_as_int dims1 dims2 →
  GlobalPoolingAdjustment dims1 global k s p
  = GlobalPoolingAdjustment dims2 global k s p.
Proof.
  intros Hsame. unfold GlobalPoolingAdjustment. destruct global; [|done].
  destruct Hsame as [Hlen Hcast]. rewrite Hlen. cbn zeta.
  rewrite (for_loop_ext (global_step dims1) (global_step dims2)); [done|].
  intros i vs. by apply global_step_same_spatial.
Qed.

(** The outcome of [infer_output_shape] is fixed by the rank, the spatial
    extents as [int]s and the attributes; the batch size and the channel
    count are only copied in front of what it computes. *)
Lemma infer_output_shape_same_spatial dims1 dims2 a :
  same_spatial_as_int dims1 dims2 →
  ∃ t : outcome (list Z),
    infer_output_shape dims1 a = (outs ← t; mret (take 2 dims1 ++ outs))
    ∧ infer_output_shape dims2 a = (outs ← t; mret (take 2 dims2 ++ outs)).
Proof.
  intros Hsame. pose proof Hsame as [Hlen _].
  unfold infer_output_shape, enforce. cbv [mbind outcome_bind].
  rewrite (GlobalPoolingAdjustment_same_spatial dims1 dims2) by done.
  rewrite Hlen.
  destruct (bool_decide (length dims2 = 4%nat) || bool_decide (length dims2 = 5%nat))
    eqn:Hrank.
  2: { by exists (EnforceNotMet "Pooling intput should be 4-D or 5-D tensor."). }
  destruct (GlobalPoolingAdjustment _ _ _ _ _) as [[[k s] p]|msg|].
  2: { by exists (EnforceNotMet msg). }
  2: { by exists Undefined. }
  destruct (size_t_sub (length dims2) (length k) =? 2).
  2: { by exists (EnforceNotMet "Input size and pooling size should be consistent."). }
  destruct (bool_decide (length k = length s)).
  2: { by exists (EnforceNotMet "Strides size and pooling size should be the same."). }
  destruct (bool_decide (length k = length p)).
  2: { by exists (EnforceNotMet "Paddings size and pooling size should be the same."). }
  apply orb_true_iff in Hrank. rewrite !bool_decide_eq_true in Hrank.
  destruct dims1 as [|n1 [|c1 sp1]]; [cbn in Hlen; lia | cbn in Hlen; lia |].
  destruct dims2 as [|n2 [|c2 sp2]]; [cbn in Hlen; lia | cbn in Hlen; lia |].
  exists (for_loop (output_step (n2 :: c2 :: sp2) k p s) 0 (length k) []).
  change (vec_get (n1 :: c1 :: sp1) 0) with (Ok n1).
  change (vec_get (n1 :: c1 :: sp1) 1) with (Ok c1).
  change (vec_get (n2 :: c2 :: sp2) 0) with (Ok n2).
  change (vec_get (n2 :: c2 :: sp2) 1) with (Ok c2).
  cbv beta iota.
  rewrite (for_loop_ext (output_step (n1 :: c1 :: sp1) k p s)
             (output_step (n2 :: c2 :: sp2) k p s))
    by (intros; by apply output_step_same_spatial).
  split.
  - apply (output_loop_prefix _ _ _ _ 0 (length k) [n1; c1] []).
  - apply (output_loop_prefix _ _ _ _ 0 (length k) [n2; c2] []).
Qed.

End ShapeDependence.

(** ** Postconditions of the forward run *)

Section ForwardPostconditions.

Import MaxPoolWithIndexOp.

(** The forward run, in full. *)
Lemma InferShape_eq ctx :
  InferShape ctx
  = match input_vars ctx !! "X" with
    | None => (EnforceNotMet "X(Input) of Pooling should not be null.", ctx)
    | Some dims =>
        match output_vars ctx !! "Out" with
        | None => (EnforceNotMet "Out(Output) of Pooling should not be null.", ctx)
        | Some _ =>
            match output_vars ctx !! "Mask" with
            | None =>
                (EnforceNotMet "Mask(Output) of Pooling should not be null.", ctx)
            | Some _ =>
                match infer_output_shape dims (Attrs ctx) with
                | Ok shape => (Ok (), set_output_dims shape ctx)
                | EnforceNotMet msg =>
                    (EnforceNotMet msg, log (EvGetInputDim "X") ctx)
                | Undefined => (Undefined, log (EvGetInputDim "X") ctx)
                end
            end
        end
    end.
Proof.
  destruct (input_vars ctx !! "X") as [dims|] eqn:HX.
  2: { unfold InferShape.
       cbv [mbind InferShapeM_bind HasInput HasOutput PADDLE_ENFORCE].
       by rewrite HX. }
  destruct (output_vars ctx !! "Out") as [out|] eqn:HOut.
  2: { unfold InferShape.
       cbv [mbind InferShapeM_bind HasInput HasOutput PADDLE_ENFORCE].
       by rewrite HX, HOut. }
  destruct (output_vars ctx !! "Mask") as [mask|] eqn:HMask.
  2: { unfold InferShape.
       cbv [mbind InferShapeM_bind HasInput HasOutput PADDLE_ENFORCE].
       by rewrite HX, HOut, HMask. }
  apply InferShape_unfold; [done | by rewrite HOut | by rewrite HMask].
Qed.

(** X7. Whenever the forward run returns normally, the input had rank 4 or
    5, and Out and Mask hold one and the same shape, of the rank of the
    input, that starts with the batch size and the channel count of the
    input. *)
Theorem InferShape_success_shape ctx ctx' :
  InferShape ctx = (Ok (), ctx') →
  ∃ n c spatial outs,
    input_vars ctx !! "X" = Some (n :: c :: spatial)
    ∧ (length spatial = 2 ∨ length spatial = 3)%nat
    ∧ output_vars ctx' !! "Out" = Some (n :: c :: outs)
    ∧ output_vars ctx' !! "Mask" = Some (n :: c :: outs)
    ∧ length outs = length spatial.
Proof.
  rewrite InferShape_eq.
  destruct (input_vars ctx !! "X") as [dims|]; [|done].
  destruct (output_vars ctx !! "Out"); [|done].
  destruct (output_vars ctx !! "Mask"); [|done].
  destruct (infer_output_shape dims (Attrs ctx)) as [shape| |] eqn:Hshape;
    [|done|done].
  intros [= <-].
  apply infer_output_shape_Ok_inv in Hshape
    as (n & c & spatial & outs & -> & Hrank & -> & Houts).
  exists n, c, spatial, outs. cbn [set_output_dims output_vars].
  rewrite lookup_insert_eq, lookup_insert_ne, lookup_insert_eq by done.
  done.
Qed.

Lemma InferShape_success_shape_witness :
  ∃ n c spatial outs,
    input_vars (forward_ctx [2; 3; 7; 5] (pool_attrs false [3; 3] [2; 2] [1; 1]))
      !! "X" = Some (n :: c :: spatial)
    ∧ (length spatial = 2 ∨ length spatial = 3)%nat
    ∧ output_vars
        (snd (InferShape (forward_ctx [2; 3; 7; 5]
                            (pool_attrs false [3; 3] [2; 2] [1; 1]))))
        !! "Out" = Some (n :: c :: outs)
    ∧ output_vars
        (snd (InferShape (forward_ctx [2; 3; 7; 5]
                            (pool_attrs false [3; 3] [2; 2] [1; 1]))))
        !! "Mask" = Some (n :: c :: outs)
    ∧ length outs = length spatial.
Proof.
  apply (InferShape_success_shape
           (forward_ctx [2; 3; 7; 5] (pool_attrs false [3; 3] [2; 2] [1; 1]))).
  reflexivity.
Defined.



(** X9. Shape inference is idempotent: run again on the context that a
    successful run left, it succeeds again and leaves the dimensions of every
    output as they are. *)
Theorem InferShape_idempotent ctx ctx' :
  InferShape ctx = (Ok (), ctx') →
  ∃ ctx'',
    InferShape ctx' = (Ok (), ctx'')
    ∧ output_vars ctx'' = output_vars ctx'.
Proof.
  rewrite InferShape_eq.
  destruct (input_vars ctx !! "X") as [dims|] eqn:HX; [|done].
  destruct (output_vars ctx !! "Out"); [|done].
  destruct (output_vars ctx !! "Mask"); [|done].
  destruct (infer_output_shape dims (Attrs ctx)) as [shape| |] eqn:Hshape;
    [|done|done].
  intros [= <-]. exists (set_output_dims shape (set_output_dims shape ctx)).
  split.
  - rewrite InferShape_eq. cbn [set_output_dims input_vars output_vars Attrs].
    rewrite HX, lookup_insert_ne, !lookup_insert_eq, Hshape by done. done.
  - cbn [set_output_dims output_vars].
    apply map_eq. intros name.
    destruct (decide (name = "Mask")) as [->|HnMask];
      [by rewrite !lookup_insert_eq|].
    rewrite !(lookup_insert_ne _ "Mask") by done.
    destruct (decide (name = "Out")) as [->|HnOut];
      [by rewrite !lookup_insert_eq|].
    rewrite !(lookup_insert_ne _ "Out") by done.
    by rewrite !lookup_insert_ne.
Qed.

Lemma InferShape_idempotent_witness :
  ∃ ctx'',
    InferShape (snd (InferShape (forward_ctx [2; 3; 7; 5]
                                   (pool_attrs false [3; 3] [2; 2] [1; 1]))))
    = (Ok (), ctx'')
    ∧ output_vars ctx''
      = output_vars (snd (InferShape (forward_ctx [2; 3; 7; 5]
                                        (pool_attrs false [3; 3] [2; 2] [1; 1])))).
Proof.
  apply (InferShape_idempotent
           (forward_ctx [2; 3; 7; 5] (pool_attrs false [3; 3] [2; 2] [1; 1]))).
  reflexivity.
Defined.

End ForwardPostconditions.

(** ** What the forward run does not depend on *)

Section ForwardIndependence.

Import MaxPoolWithIndexOp.

(** Two runs on inputs with the same spatial extents as [int]s and the same
    attributes end alike, and set shapes that differ in the batch size and
    the channel count only. *)
Lemma InferShape_same_spatial ctx1 ctx2 dims1 dims2 :
  input_vars ctx1 !! "X" = Some dims1 →
  input_vars ctx2 !! "X" = Some dims2 →
  is_Some (output_vars ctx1 !! "Out") → is_Some (output_vars ctx1 !! "Mask") →
  is_Some (output_vars ctx2 !! "Out") → is_Some (output_vars ctx2 !! "Mask") →
  Attrs ctx1 = Attrs ctx2 →
  same_spatial_as_int dims1 dims2 →
  fst (InferShape ctx1) = fst (InferShape ctx2)
  ∧ (fst (InferShape ctx1) = Ok () →
     ∃ outs,
       output_vars (snd (InferShape ctx1)) !! "Out" = Some (take 2 dims1 ++ outs)
       ∧ output_vars (snd (InferShape ctx1)) !! "Mask" = Some (take 2 dims1 ++ outs)
       ∧ output_vars (snd (InferShape ctx2)) !! "Out" = Some (take 2 dims2 ++ outs)
       ∧ output_vars (snd (InferShape ctx2)) !! "Mask" = Some (take 2 dims2 ++ outs)).
Proof.
  intros HX1 HX2 HOut1 HMask1 HOut2 HMask2 Hattrs Hsame.
  rewrite (InferShape_unfold ctx1 dims1), (InferShape_unfold ctx2 dims2) by done.
  destruct (infer_output_shape_same_spatial dims1 dims2 (Attrs ctx1) Hsame)
    as (t & -> & H2).
  rewrite <- Hattrs, H2.
  destruct t as [outs|msg|]; cbv [mbind outcome_bind mret outcome_ret];
    cbn [fst snd set_output_dims output_vars]; [|done|done].
  split; [done|]. intros _. exists outs.
  split; [by rewrite lookup_insert_ne, lookup_insert_eq|].
  split; [by rewrite lookup_insert_eq|].
  split; [by rewrite lookup_insert_ne, lookup_insert_eq|].
  by rewrite lookup_insert_eq.
Qed.

(** X10. The batch size and the channel count of the input decide neither
    whether shape inference succeeds nor the spatial extents it computes: two
    runs that differ in them only end alike and set the same spatial
    extents behind their own batch size and channel count. *)
Theorem InferShape_batch_channel_independent ctx1 ctx2 n1 c1 n2 c2 spatial :
  input_vars ctx1 !! "X" = Some (n1 :: c1 :: spatial) →
  input_vars ctx2 !! "X" = Some (n2 :: c2 :: spatial) →
  is_Some (output_vars ctx1 !! "Out") → is_Some (output_vars ctx1 !! "Mask") →
  is_Some (output_vars ctx2 !! "Out") → is_Some (output_vars ctx2 !! "Mask") →
  Attrs ctx1 = Attrs ctx2 →
  fst (InferShape ctx1) = fst (InferShape ctx2)
  ∧ (fst (InferShape ctx1) = Ok () →
     ∃ outs,
       output_vars (snd (InferShape ctx1)) !! "Out" = Some (n1 :: c1 :: outs)
       ∧ output_vars (snd (InferShape ctx1)) !! "Mask" = Some (n1 :: c1 :: outs)
       ∧ output_vars (snd (InferShape ctx2)) !! "Out" = Some (n2 :: c2 :: outs)
       ∧ output_vars (snd (InferShape ctx2)) !! "Mask" = Some (n2 :: c2 :: outs)).
Proof.
  intros HX1 HX2 HOut1 HMask1 HOut2 HMask2 Hattrs.
  by apply (InferShape_same_spatial ctx1 ctx2 (n1 :: c1 :: spatial)
              (n2 :: c2 :: spatial)).
Qed.

Lemma InferShape_batch_channel_independent_witness :
  let ctx1 := forward_ctx [1; 1; 7; 5] (pool_attrs false [3; 3] [2; 2] [1; 1]) in
  let ctx2 := forward_ctx [64; 8; 7; 5] (pool_attrs false [3; 3] [2; 2] [1; 1]) in
  fst (InferShape ctx1) = fst (InferShape ctx2)
  ∧ (fst (InferShape ctx1) = Ok () →
     ∃ outs,
       output_vars (snd (InferShape ctx1)) !! "Out" = Some (1 :: 1 :: outs)
       ∧ output_vars (snd (InferShape ctx1)) !! "Mask" = Some (1 :: 1 :: outs)
       ∧ output_vars (snd (InferShape ctx2)) !! "Out" = Some (64 :: 8 :: outs)
       ∧ output_vars (snd (InferShape ctx2)) !! "Mask" = Some (64 :: 8 :: outs)).
Proof.
  intros ctx1 ctx2.
  apply (InferShape_batch_channel_independent ctx1 ctx2 1 1 64 8 [7; 5]).
  - reflexivity.
  - reflexivity.
  - exists []. reflexivity.
  - exists []. reflexivity.
  - exists []. reflexivity.
  - exists []. reflexivity.
  - reflexivity.
Defined.

(** X11. The spatial extents of the input are converted from [int64_t] to
    [int] before use, so only their values modulo 2^32 count: two inputs
    with the same batch size and channel count whose spatial extents agree
    after that conversion end alike and get the same shape. *)
Theorem InferShape_spatial_extents_as_int ctx1 ctx2 n c spatial1 spatial2 :
  input_vars ctx1 !! "X" = Some (n :: c :: spatial1) →
  input_vars ctx2 !! "X" = Some (n :: c :: spatial2) →
  is_Some (output_vars ctx1 !! "Out") → is_Some (output_vars ctx1 !! "Mask") →
  is_Some (output_vars ctx2 !! "Out") → is_Some (output_vars ctx2 !! "Mask") →
  Attrs ctx1 = Attrs ctx2 →
  Int.static_cast <$> spatial1 = Int.static_cast <$> spatial2 →
  fst (InferShape ctx1) = fst (InferShape ctx2)
  ∧ (fst (InferShape ctx1) = Ok () →
     ∃ shape,
       output_vars (snd (InferShape ctx1)) !! "Out" = Some shape
       ∧ output_vars (snd (InferShape ctx1)) !! "Mask" = Some shape
       ∧ output_vars (snd (InferShape ctx2)) !! "Out" = Some shape
       ∧ output_vars (snd (InferShape ctx2)) !! "Mask" = Some shape).
Proof.
  intros HX1 HX2 HOut1 HMask1 HOut2 HMask2 Hattrs Hcast.
  destruct (InferShape_same_spatial ctx1 ctx2 (n :: c :: spatial1)
              (n :: c :: spatial2)) as [Hfst Hok]; try done.
  { split; [|done]. cbn. f_equal. f_equal.
    apply (f_equal length) in Hcast. by rewrite !length_fmap in Hcast. }
  split; [done|]. intros Hrun.
  destruct (Hok Hrun) as (outs & ? & ? & ? & ?). by exists (n :: c :: outs).
Qed.

(** A height of 2^32 + 4 is pooled like a height of 4. *)
Lemma InferShape_spatial_extents_as_int_witness :
  let ctx1 := forward_ctx [1; 1; 4; 4] (pool_attrs false [2; 2] [2; 2] [0; 0]) in
  let ctx2 := forward_ctx [1; 1; 4294967300; 4]
                (pool_attrs false [2; 2] [2; 2] [0; 0]) in
  fst (InferShape ctx1) = fst (InferShape ctx2)
  ∧ (fst (InferShape ctx1) = Ok () →
     ∃ shape,
       output_vars (snd (InferShape ctx1)) !! "Out" = Some shape
       ∧ output_vars (snd (InferShape ctx1)) !! "Mask" = Some shape
       ∧ output_vars (snd (InferShape ctx2)) !! "Out" = Some shape
       ∧ output_vars (snd (InferShape ctx2)) !! "Mask" = Some shape).
Proof.
  intros ctx1 ctx2.
  apply (InferShape_spatial_extents_as_int ctx1 ctx2 1 1 [4; 4] [4294967300; 4]).
  - reflexivity.
  - reflexivity.
  - exists []. reflexivity.
  - exists []. reflexivity.
  - exists []. reflexivity.
  - exists []. reflexivity.
  - reflexivity.
  - reflexivity.
Defined.

End ForwardIndependence.

(** ** Global pooling and the supplied window and paddings *)

Section GlobalPoolingIgnores.

Import MaxPoolWithIndexOp.

(** Under global pooling the supplied window does not count at all, and of
    the supplied paddings only their number. *)
Lemma infer_output_shape_global dims k1 k2 s p1 p2 :
  length p1 = length p2 →
  infer_output_shape dims (pool_attrs true k1 s p1)
  = infer_output_shape dims (pool_attrs true k2 s p2).
Proof.
  intros Hlen. unfold infer_output_shape, enforce. cbv [mbind outcome_bind].
  cbn [pool_attrs ksize strides paddings globalPooling].
  destruct (bool_decide (length dims = 4%nat) || bool_decide (length dims = 5%nat))
    eqn:Hrank; [|done].
  apply orb_true_iff in Hrank. rewrite !bool_decide_eq_true in Hrank.
  destruct (decide (length dims - 2 ≤ length p1)%nat) as [Hcover|Hshort].
  - rewrite !GlobalPoolingAdjustment_true by lia.
    destruct (_ =? _); [|done].
    destruct (bool_decide (_ = length s)); [|done].
    rewrite !length_app, !length_replicate, !length_drop, Hlen.
    case_bool_decide as Hp; [|done].
    rewrite length_fmap, length_drop in Hp.
    rewrite (drop_ge p1), (drop_ge p2) by lia. done.
  - rewrite !GlobalPoolingAdjustment_short_paddings by lia. done.
Qed.

(** X12. With globalPooling set, the supplied window (its values and its
    length) and the values of the supplied paddings are ignored: two runs
    that differ in them only, the paddings having the same number of entries
    in both, end alike and leave the same output dimensions and trace. *)
Theorem InferShape_global_ignores_window_and_padding_values
    inputs outputs events k1 k2 s p1 p2 :
  length p1 = length p2 →
  let ctx1 := {| input_vars := inputs; output_vars := outputs;
                 Attrs := pool_attrs true k1 s p1; trace := events |} in
  let ctx2 := {| input_vars := inputs; output_vars := outputs;
                 Attrs := pool_attrs true k2 s p2; trace := events |} in
  fst (InferShape ctx1) = fst (InferShape ctx2)
  ∧ output_vars (snd (InferShape ctx1)) = output_vars (snd (InferShape ctx2))
  ∧ trace (snd (InferShape ctx1)) = trace (snd (InferShape ctx2)).
Proof.
  intros Hlen ctx1 ctx2. rewrite !InferShape_eq.
  cbn [ctx1 ctx2 input_vars output_vars Attrs].
  destruct (inputs !! "X") as [dims|]; [|done].
  destruct (outputs !! "Out"); [|done].
  destruct (outputs !! "Mask"); [|done].
  rewrite (infer_output_shape_global dims k1 k2 s p1 p2 Hlen).
  by destruct (infer_output_shape dims (pool_attrs true k2 s p2)).
Qed.

Lemma InferShape_global_ignores_window_and_padding_values_witness :
  let ctx1 := {| input_vars := {[ "X" := [2; 3; 7; 5] ]};
                 output_vars := {[ "Out" := []; "Mask" := [] ]};
                 Attrs := pool_attrs true [2; 2] [3; 2] [4; 9]; trace := [] |} in
  let ctx2 := {| input_vars := {[ "X" := [2; 3; 7; 5] ]};
                 output_vars := {[ "Out" := []; "Mask" := [] ]};
                 Attrs := pool_attrs true [100] [3; 2] [0; 0]; trace := [] |} in
  fst (InferShape ctx1) = fst (InferShape ctx2)
  ∧ output_vars (snd (InferShape ctx1)) = output_vars (snd (InferShape ctx2))
  ∧ trace (snd (InferShape ctx1)) = trace (snd (InferShape ctx2)).
Proof.
  apply (InferShape_global_ignores_window_and_padding_values
           {[ "X" := [2; 3; 7; 5] ]} {[ "Out" := []; "Mask" := [] ]} []
           [2; 2] [100] [3; 2] [4; 9] [0; 0]).
  reflexivity.
Defined.

(** X13. The number of paddings is not ignored under global pooling: with
    more paddings than spatial axes the run fails with the error about the
    paddings size, although the operator makers document the paddings as
    ignored when globalPooling is set. *)
Theorem InferShape_global_too_many_paddings ctx dims :
  input_vars ctx !! "X" = Some dims →
  is_Some (output_vars ctx !! "Out") →
  is_Some (output_vars ctx !! "Mask") →
  (length dims = 4 ∨ length dims = 5)%nat →
  globalPooling (Attrs ctx) = true →
  length (strides (Attrs ctx)) = (length dims - 2)%nat →
  (length dims - 2 < length (paddings (Attrs ctx)))%nat →
  InferShape ctx
  = (EnforceNotMet "Paddings size and pooling size should be the same.",
     log (EvGetInputDim "X") ctx).
Proof.
  intros HX HOut HMask Hrank Hglobal Hs Hp.
  pose proof (GlobalPoolingAdjustment_true dims (ksize (Attrs ctx))
                (strides (Attrs ctx)) (paddings (Attrs ctx))) as Hadj.
  rewrite <- Hglobal in Hadj. specialize (Hadj ltac:(lia) ltac:(lia)).
  eapply InferShape_paddings_error; eauto.
  - rewrite length_fmap, length_drop, size_check_spec by lia.
    apply bool_decide_eq_true_2. lia.
  - by rewrite length_fmap, length_drop.
  - rewrite length_fmap, length_app, length_replicate, !length_drop. lia.
Qed.

Lemma InferShape_global_too_many_paddings_witness :
  InferShape (forward_ctx [1; 1; 4; 4] (pool_attrs true [2; 2] [1; 1] [0; 0; 0]))
  = (EnforceNotMet "Paddings size and pooling size should be the same.",
     log (EvGetInputDim "X")
       (forward_ctx [1; 1; 4; 4] (pool_attrs true [2; 2] [1; 1] [0; 0; 0]))).
Proof.
  apply (InferShape_global_too_many_paddings _ [1; 1; 4; 4]).
  - reflexivity.
  - exists []. reflexivity.
  - exists []. reflexivity.
  - left. reflexivity.
  - reflexivity.
  - reflexivity.
  - simpl. lia.
Defined.



End GlobalPoolingIgnores.

(** ** Zero strides and the order of the checks *)

Section StridesAndChecks.

Import MaxPoolWithIndexOp.

(** Past the checks, [infer_output_shape] is the loop over the axes. *)
Lemma infer_output_shape_checked n c spatial a k' s' p' :
  (length spatial = 2 ∨ length spatial = 3)%nat →
  GlobalPoolingAdjustment (n :: c :: spatial) (globalPooling a) (ksize a)
    (strides a) (paddings a) = Ok (k', s', p') →
  length k' = length spatial →
  length s' = length spatial →
  length p' = length spatial →
  infer_output_shape (n :: c :: spatial) a
  = for_loop (output_step (n :: c :: spatial) k' p' s') 0 (length k') [n; c].
Proof.
  intros Hrank Hadj Hk Hs Hp.
  unfold infer_output_shape, enforce. cbv [mbind outcome_bind].
  rewrite Hadj.
  rewrite (rank_check_true (n :: c :: spatial))
    by (cbn [length]; destruct Hrank as [-> | ->]; [by left | by right]).
  assert ((size_t_sub (length (n :: c :: spatial)) (length k') =? 2) = true) as ->.
  { rewrite size_check_spec by (cbn [length]; lia).
    apply bool_decide_eq_true_2. cbn [length]. lia. }
  by rewrite !bool_decide_eq_true_2 by congruence.
Qed.

(** The loop over the axes stops undefined at a zero stride, if not before. *)
Lemma output_loop_zero_stride n c spatial k p s j :
  length k = length spatial → length p = length spatial →
  length s = length spatial →
  s !! j = Some 0 →
  for_loop (output_step (n :: c :: spatial) k p s) 0 (length k) [n; c] = Undefined.
Proof.
  intros Hk Hp Hs Hj.
  assert (j < length s)%nat as Hlt by by eapply lookup_lt_Some.
  replace (length k) with (j + S (length k - j - 1))%nat by lia.
  rewrite for_loop_add.
  destruct (for_loop _ 0 j [n; c]) as [shape|msg|] eqn:Hrun; [| |done].
  - destruct (lookup_lt_is_Some_2 spatial j) as [d Hd]; [lia|].
    destruct (lookup_lt_is_Some_2 k j) as [kj Hkj]; [lia|].
    destruct (lookup_lt_is_Some_2 p j) as [pj Hpj]; [lia|].
    assert (output_step (n :: c :: spatial) k p s j shape = Undefined) as Hbody.
    { unfold output_step.
      rewrite (vec_get_lookup (n :: c :: spatial) (j + 2) d)
        by (by rewrite Nat.add_comm).
      cbn. rewrite (vec_get_lookup _ _ _ Hkj). cbn.
      rewrite (vec_get_lookup _ _ _ Hpj). cbn.
      rewrite (vec_get_lookup _ _ _ Hj). cbn.
      by rewrite OutputSizeMaxPool_zero_stride. }
    change (for_loop (output_step (n :: c :: spatial) k p s) j
              (S (length k - j - 1)) shape = Undefined).
    cbn [for_loop]. by rewrite Hbody.
  - exfalso. eapply for_loop_no_enforce; [|exact Hrun].
    intros i shape. apply output_step_no_enforce.
Qed.

(** X15. A zero stride is not reported as a configuration error: with
    vectors of the right lengths and a zero among the strides, the division
    in [OutputSizeMaxPool] is by zero, the behaviour is undefined, and no
    output dimension is set. *)
Theorem InferShape_zero_stride_undefined ctx n c spatial j :
  input_vars ctx !! "X" = Some (n :: c :: spatial) →
  is_Some (output_vars ctx !! "Out") →
  is_Some (output_vars ctx !! "Mask") →
  (length spatial = 2 ∨ length spatial = 3)%nat →
  globalPooling (Attrs ctx) = true
  ∨ length (ksize (Attrs ctx)) = length spatial →
  length (strides (Attrs ctx)) = length spatial →
  length (paddings (Attrs ctx)) = length spatial →
  strides (Attrs ctx) !! j = Some 0 →
  InferShape ctx = (Undefined, log (EvGetInputDim "X") ctx).
Proof.
  intros HX HOut HMask Hrank Hk Hs Hp Hj.
  rewrite (InferShape_unfold ctx (n :: c :: spatial)) by done.
  destruct (globalPooling (Attrs ctx)) eqn:Hglobal.
  - rewrite (infer_output_shape_checked n c spatial (Attrs ctx)
               (Int.static_cast <$> spatial) (strides (Attrs ctx))
               (replicate (length spatial) 0)).
    + rewrite (output_loop_zero_stride _ _ _ _ _ _ j); try done.
      * by rewrite length_fmap.
      * by rewrite length_replicate.
    + done.
    + rewrite Hglobal, GlobalPoolingAdjustment_true by (cbn [length]; lia).
      cbn [length drop]. replace (S (S (length spatial)) - 2)%nat
        with (length spatial) by lia.
      rewrite drop_0, (drop_ge (paddings (Attrs ctx))) by lia.
      by rewrite app_nil_r.
    + by rewrite length_fmap.
    + done.
    + by rewrite length_replicate.
  - destruct Hk as [|Hk]; [done|].
    rewrite (infer_output_shape_checked n c spatial (Attrs ctx)
               (ksize (Attrs ctx)) (strides (Attrs ctx)) (paddings (Attrs ctx)));
      try done.
    + by rewrite (output_loop_zero_stride _ _ _ _ _ _ j).
    + by rewrite Hglobal.
Qed.

Lemma InferShape_zero_stride_undefined_witness :
  InferShape (forward_ctx [1; 1; 4; 4] (pool_attrs false [2; 2] [1; 0] [0; 0]))
  = (Undefined,
     log (EvGetInputDim "X")
       (forward_ctx [1; 1; 4; 4] (pool_attrs false [2; 2] [1; 0] [0; 0]))).
Proof.
  apply (InferShape_zero_stride_undefined _ 1 1 [4; 4] 1).
  - reflexivity.
  - exists []. reflexivity.
  - exists []. reflexivity.
  - left. reflexivity.
  - right. reflexivity.
  - reflexivity.
  - reflexivity.
  - reflexivity.
Defined.

(** X16. With globalPooling unset the three size checks run in the order
    written, and the first one that fails gives the message: a window of the
    wrong length is reported as an inconsistent input size whatever the
    strides and paddings are, and wrong strides are reported before wrong
    paddings. *)
Theorem InferShape_first_failed_check ctx dims :
  input_vars ctx !! "X" = Some dims →
  is_Some (output_vars ctx !! "Out") →
  is_Some (output_vars ctx !! "Mask") →
  (length dims = 4 ∨ length dims = 5)%nat →
  globalPooling (Attrs ctx) = false →
  Z.of_nat (length (ksize (Attrs ctx))) < 2 ^ 62 →
  ((length dims - 2)%nat ≠ length (ksize (Attrs ctx)) →
   InferShape ctx
   = (EnforceNotMet "Input size and pooling size should be consistent.",
      log (EvGetInputDim "X") ctx))
  ∧ ((length dims - 2)%nat = length (ksize (Attrs ctx)) →
     length (ksize (Attrs ctx)) ≠ length (strides (Attrs ctx)) →
     InferShape ctx
     = (EnforceNotMet "Strides size and pooling size should be the same.",
        log (EvGetInputDim "X") ctx))
  ∧ ((length dims - 2)%nat = length (ksize (Attrs ctx)) →
     length (ksize (Attrs ctx)) = length (strides (Attrs ctx)) →
     length (ksize (Attrs ctx)) ≠ length (paddings (Attrs ctx)) →
     InferShape ctx
     = (EnforceNotMet "Paddings size and pooling size should be the same.",
        log (EvGetInputDim "X") ctx)).
Proof.
  intros HX HOut HMask Hrank Hglobal Hmax.
  assert (GlobalPoolingAdjustment dims (globalPooling (Attrs ctx))
            (ksize (Attrs ctx)) (strides (Attrs ctx)) (paddings (Attrs ctx))
          = Ok (ksize (Attrs ctx), strides (Attrs ctx), paddings (Attrs ctx)))
    as Hadj by (by rewrite Hglobal).
  pose proof (size_check_spec (length dims) (length (ksize (Attrs ctx)))
                ltac:(lia) Hmax) as Hsize.
  split; [|split].
  - intros Hk. eapply InferShape_size_error; eauto.
    rewrite Hsize. apply bool_decide_eq_false_2. lia.
  - intros Hk Hs. eapply InferShape_strides_error; eauto.
    rewrite Hsize. apply bool_decide_eq_true_2. lia.
  - intros Hk Hs Hp. eapply InferShape_paddings_error; eauto.
    rewrite Hsize. apply bool_decide_eq_true_2. lia.
Qed.

(** A window, strides and paddings that are all of the wrong length give the
    message about the window; right window, wrong strides and paddings give
    the one about the strides. *)
Lemma InferShape_first_failed_check_witness :
  InferShape (forward_ctx [1; 1; 4; 4] (pool_attrs false [2] [1; 1; 1] [0]))
  = (EnforceNotMet "Input size and pooling size should be consistent.",
     log (EvGetInputDim "X")
       (forward_ctx [1; 1; 4; 4] (pool_attrs false [2] [1; 1; 1] [0])))
  ∧ InferShape (forward_ctx [1; 1; 4; 4] (pool_attrs false [2; 2] [1; 1; 1] [0]))
    = (EnforceNotMet "Strides size and pooling size should be the same.",
       log (EvGetInputDim "X")
         (forward_ctx [1; 1; 4; 4] (pool_attrs false [2; 2] [1; 1; 1] [0])))
  ∧ InferShape (forward_ctx [1; 1; 4; 4] (pool_attrs false [2; 2] [1; 1] [0]))
    = (EnforceNotMet "Paddings size and pooling size should be the same.",
       log (EvGetInputDim "X")
         (forward_ctx [1; 1; 4; 4] (pool_attrs false [2; 2] [1; 1] [0]))).
Proof.
  split; [|split].
  - apply (InferShape_first_failed_check
             (forward_ctx [1; 1; 4; 4] (pool_attrs false [2] [1; 1; 1] [0]))
             [1; 1; 4; 4]); try reflexivity.
    + exists []. reflexivity.
    + exists []. reflexivity.
    + left. reflexivity.
    + simpl. lia.
  - apply (InferShape_first_failed_check
             (forward_ctx [1; 1; 4; 4] (pool_attrs false [2; 2] [1; 1; 1] [0]))
             [1; 1; 4; 4]); try reflexivity.
    + exists []. reflexivity.
    + exists []. reflexivity.
    + left. reflexivity.
    + simpl. lia.
  - apply (InferShape_first_failed_check
             (forward_ctx [1; 1; 4; 4] (pool_attrs false [2; 2] [1; 1] [0]))
             [1; 1; 4; 4]); try reflexivity.
    + exists []. reflexivity.
    + exists []. reflexivity.
    + left. reflexivity.
    + simpl. lia.
Defined.

End StridesAndChecks.

(** ** What a successful forward run implies about the attributes *)

Section NecessaryLengths.

Import MaxPoolWithIndexOp.

Lemma output_loop_length dims k p s first count init shape :
  for_loop (output_step dims k p s) first count init = Ok shape →
  length shape = (length init + count)%nat.
Proof.
  intros Hrun.
  apply (for_loop_Ok_invariant _
    (λ i sh, (length sh + first = length init + i)%nat)) in Hrun; [lia | done |].
  intros i sh sh' Hstep Hlen. unfold output_step in Hstep.
  destruct (vec_get dims (i + 2)); cbn in Hstep; try done.
  destruct (vec_get k i); cbn in Hstep; try done.
  destruct (vec_get p i); cbn in Hstep; try done.
  destruct (vec_get s i); cbn in Hstep; try done.
  destruct (OutputSizeMaxPool _ _ _ _); cbn in Hstep; try done.
  injection Hstep as <-. rewrite length_app. cbn. lia.
Qed.

(** [infer_output_shape] returns only when the strides and the paddings have
    one entry per spatial axis and, unless globalPooling is set, the window
    has too. *)
Lemma infer_output_shape_Ok_lengths dims a shape :
  infer_output_shape dims a = Ok shape →
  length (strides a) = (length dims - 2)%nat
  ∧ length (paddings a) = (length dims - 2)%nat
  ∧ (globalPooling a = false → length (ksize a) = (length dims - 2)%nat).
Proof.
  intros Hshape.
  pose proof (infer_output_shape_Ok_inv _ _ _ Hshape)
    as (n & c & spatial & outs & -> & Hrank & -> & Houts).
  revert Hshape. unfold infer_output_shape, enforce. cbv [mbind outcome_bind].
  destruct (_ || _); [|done].
  destruct (globalPooling a) eqn:Hglobal.
  - destruct (decide (length (n :: c :: spatial) - 2 ≤ length (paddings a))%nat)
      as [Hcover|Hshort].
    + rewrite GlobalPoolingAdjustment_true by (cbn [length] in *; lia).
      destruct (_ =? _); [|done].
      case_bool_decide as Hs; [|done]. case_bool_decide as Hp; [|done].
      intros _. rewrite length_fmap, length_drop in Hs, Hp.
      rewrite length_app, length_replicate, length_drop in Hp.
      split; [done|]. split; [lia | done].
    + by rewrite GlobalPoolingAdjustment_short_paddings by lia.
  - cbn [GlobalPoolingAdjustment].
    destruct (_ =? _); [|done].
    case_bool_decide as Hs; [|done]. case_bool_decide as Hp; [|done].
    change (vec_get (n :: c :: spatial) 0) with (Ok n).
    change (vec_get (n :: c :: spatial) 1) with (Ok c).
    cbv beta iota. intros Hloop%output_loop_length.
    cbn [length] in *. split; [lia|]. split; [lia|]. intros _. lia.
Qed.

(** X17. The size checks leave no gap: whenever the forward run returns
    normally, the strides and the paddings have exactly rank - 2 entries,
    and so has the window unless globalPooling is set. *)
Theorem InferShape_success_lengths ctx ctx' :
  InferShape ctx = (Ok (), ctx') →
  ∃ dims,
    input_vars ctx !! "X" = Some dims
    ∧ length (strides (Attrs ctx)) = (length dims - 2)%nat
    ∧ length (paddings (Attrs ctx)) = (length dims - 2)%nat
    ∧ (globalPooling (Attrs ctx) = false →
       length (ksize (Attrs ctx)) = (length dims - 2)%nat).
Proof.
  rewrite InferShape_eq.
  destruct (input_vars ctx !! "X") as [dims|]; [|done].
  destruct (output_vars ctx !! "Out"); [|done].
  destruct (output_vars ctx !! "Mask"); [|done].
  destruct (infer_output_shape dims (Attrs ctx)) as [shape| |] eqn:Hshape;
    [|done|done].
  intros _. exists dims. split; [done|].
  by eapply infer_output_shape_Ok_lengths.
Qed.

Lemma InferShape_success_lengths_witness :
  ∃ dims,
    input_vars (forward_ctx [2; 3; 7; 5] (pool_attrs false [3; 3] [2; 2] [1; 1]))
      !! "X" = Some dims
    ∧ length [2; 2] = (length dims - 2)%nat
    ∧ length [1; 1] = (length dims - 2)%nat
    ∧ (false = false → length [3; 3] = (length dims - 2)%nat).
Proof.
  apply (InferShape_success_lengths
           (forward_ctx [2; 3; 7; 5] (pool_attrs false [3; 3] [2; 2] [1; 1]))
           (snd (InferShape
                   (forward_ctx [2; 3; 7; 5] (pool_attrs false [3; 3] [2; 2] [1; 1]))))).
  reflexivity.
Defined.

End NecessaryLengths.

(** ** The gradient run and its place after the forward run *)

Section GradContext.

Lemma Grad_InferShape_eq ctx :
  MaxPoolWithIndexOpGrad.InferShape ctx
  = match input_vars ctx !! "Mask" with
    | None => (EnforceNotMet "Input(Mask) must not be null.", ctx)
    | Some _ =>
        match input_vars ctx !! "X" with
        | None => (EnforceNotMet "Input(X) must not be null.", ctx)
        | Some dim =>
            match output_vars ctx !! "X@GRAD" with
            | None => (EnforceNotMet "Input(X@GRAD) should not be null.", ctx)
            | Some _ =>
                (Ok (),
                 {| input_vars := input_vars ctx;
                    output_vars := <["X@GRAD" := dim]> (output_vars ctx);
                    Attrs := Attrs ctx;
                    trace := trace ctx ++ [EvGetInputDim "X";
                                           EvSetOutputDim "X@GRAD" dim] |})
            end
        end
    end.
Proof.
  destruct (input_vars ctx !! "Mask") as [mask|] eqn:HMask.
  2: { unfold MaxPoolWithIndexOpGrad.InferShape.
       cbv [mbind InferShapeM_bind HasInput HasOutput PADDLE_ENFORCE].
       by rewrite HMask. }
  destruct (input_vars ctx !! "X") as [dim|] eqn:HX.
  2: { unfold MaxPoolWithIndexOpGrad.InferShape.
       cbv [mbind InferShapeM_bind HasInput HasOutput PADDLE_ENFORCE].
       by rewrite HMask, HX. }
  destruct (output_vars ctx !! "X@GRAD") as [dx|] eqn:HdX.
  2: { unfold MaxPoolWithIndexOpGrad.InferShape.
       cbv [mbind InferShapeM_bind HasInput HasOutput PADDLE_ENFORCE].
       change (GradVarName "X") with "X@GRAD".
       by rewrite HMask, HX, HdX. }
  apply Grad_InferShape_run; [by rewrite HMask | done | by rewrite HdX].
Qed.

(** X18. Whatever the outcome, a gradient run leaves the input variables and
    the attributes as they were and sets the dimensions of no output other
    than the gradient of X; a run that fails leaves the whole context as it
    was. *)
Theorem Grad_InferShape_frame ctx name :
  name ≠ GradVarName "X" →
  input_vars (snd (MaxPoolWithIndexOpGrad.InferShape ctx)) = input_vars ctx
  ∧ Attrs (snd (MaxPoolWithIndexOpGrad.InferShape ctx)) = Attrs ctx
  ∧ output_vars (snd (MaxPoolWithIndexOpGrad.InferShape ctx)) !! name
    = output_vars ctx !! name
  ∧ (fst (MaxPoolWithIndexOpGrad.InferShape ctx) ≠ Ok () →
     snd (MaxPoolWithIndexOpGrad.InferShape ctx) = ctx).
Proof.
  change (GradVarName "X") with "X@GRAD". intros Hname.
  rewrite Grad_InferShape_eq.
  destruct (input_vars ctx !! "Mask"); [|done].
  destruct (input_vars ctx !! "X"); [|done].
  destruct (output_vars ctx !! "X@GRAD"); [|done].
  cbn. by rewrite lookup_insert_ne.
Qed.

Lemma Grad_InferShape_frame_witness :
  let ctx := {| input_vars := {[ "Mask" := [1; 1; 2; 2]; "X" := [1; 1; 4; 4] ]};
                output_vars := {[ "X@GRAD" := []; "Other" := [7] ]};
                Attrs := pool_attrs false [2; 2] [2; 2] [0; 0];
                trace := [] |} in
  input_vars (snd (MaxPoolWithIndexOpGrad.InferShape ctx)) = input_vars ctx
  ∧ Attrs (snd (MaxPoolWithIndexOpGrad.InferShape ctx)) = Attrs ctx
  ∧ output_vars (snd (MaxPoolWithIndexOpGrad.InferShape ctx)) !! "Other"
    = output_vars ctx !! "Other"
  ∧ (fst (MaxPoolWithIndexOpGrad.InferShape ctx) ≠ Ok () →
     snd (MaxPoolWithIndexOpGrad.InferShape ctx) = ctx).
Proof.
  intros ctx. apply (Grad_InferShape_frame ctx "Other"). discriminate.
Defined.

(** X19. The gradient operator wired to the X of a forward operator that
    passed shape inference, and to the Mask it produced, passes shape
    inference too, and the gradient of X gets the shape of X, which has the
    rank, the batch size and the channel count of the Mask. *)
Theorem Grad_InferShape_after_forward fwd fwd' grad :
  MaxPoolWithIndexOp.InferShape fwd = (Ok (), fwd') →
  input_vars grad !! "X" = input_vars fwd !! "X" →
  input_vars grad !! "Mask" = output_vars fwd' !! "Mask" →
  is_Some (output_vars grad !! GradVarName "X") →
  ∃ grad' x_dims mask_dims,
    MaxPoolWithIndexOpGrad.InferShape grad = (Ok (), grad')
    ∧ input_vars fwd !! "X" = Some x_dims
    ∧ output_vars fwd' !! "Mask" = Some mask_dims
    ∧ output_vars grad' !! GradVarName "X" = Some x_dims
    ∧ length x_dims = length mask_dims
    ∧ take 2 x_dims = take 2 mask_dims.
Proof.
  change (GradVarName "X") with "X@GRAD".
  rewrite InferShape_eq. intros Hfwd HX HMask [dx HdX].
  destruct (input_vars fwd !! "X") as [dims|]; [|done].
  destruct (output_vars fwd !! "Out"); [|done].
  destruct (output_vars fwd !! "Mask"); [|done].
  destruct (infer_output_shape dims (Attrs fwd)) as [shape| |] eqn:Hshape;
    [|done|done].
  injection Hfwd as <-.
  cbn [set_output_dims output_vars] in HMask.
  rewrite lookup_insert_eq in HMask.
  apply infer_output_shape_Ok_inv in Hshape
    as (n & c & spatial & outs & -> & Hrank & -> & Houts).
  eexists _, (n :: c :: spatial), (n :: c :: outs).
  split; [by rewrite Grad_InferShape_eq, HMask, HX, HdX|].
  cbn [set_output_dims output_vars].
  rewrite !lookup_insert_eq. cbn [length]. by rewrite Houts.
Qed.

Lemma Grad_InferShape_after_forward_witness :
  let fwd := forward_ctx [2; 3; 7; 5] (pool_attrs false [3; 3] [2; 2] [1; 1]) in
  ∃ grad' x_dims mask_dims,
    MaxPoolWithIndexOpGrad.InferShape (grad_ctx [2; 3; 4; 3] [2; 3; 7; 5] [2; 3; 4; 3])
    = (Ok (), grad')
    ∧ input_vars fwd !! "X" = Some x_dims
    ∧ output_vars (snd (MaxPoolWithIndexOp.InferShape fwd)) !! "Mask" = Some mask_dims
    ∧ output_vars grad' !! GradVarName "X" = Some x_dims
    ∧ length x_dims = length mask_dims
    ∧ take 2 x_dims = take 2 mask_dims.
Proof.
  intros fwd.
  apply (Grad_InferShape_after_forward fwd
           (snd (MaxPoolWithIndexOp.InferShape fwd))
           (grad_ctx [2; 3; 4; 3] [2; 3; 7; 5] [2; 3; 4; 3])).
  - reflexivity.
  - reflexivity.
  - reflexivity.
  - exists []. reflexivity.
Defined.

End GradContext.

(** ** The defaults of the operator makers *)

Section MakerDefaults.

Import MaxPoolWithIndexOp.

(** X20. An operator made with only its window given takes stride 1 and no
    padding from the maker, and so shrinks every spatial extent by the window
    less one: the 2-D operator sets (N, C, H - kh + 1, W - kw + 1) on Out and
    Mask, the 3-D operator (N, C, D - kd + 1, H - kh + 1, W - kw + 1), for
    extents and differences that [int] represents. *)
Theorem Maker_defaults_shape ctx n c :
  is_Some (output_vars ctx !! "Out") →
  is_Some (output_vars ctx !! "Mask") →
  (∀ h w kh kw,
     input_vars ctx !! "X" = Some [n; c; h; w] →
     Attrs ctx = MaxPool2dWithIndexOpMaker.attrs [kh; kw] None None None →
     forallb axis_defined (axes [h; w] [kh; kw] [0; 0] [1; 1]) = true →
     InferShape ctx
     = (Ok (), set_output_dims [n; c; h - kh + 1; w - kw + 1] ctx))
  ∧ (∀ d h w kd kh kw,
       input_vars ctx !! "X" = Some [n; c; d; h; w] →
       Attrs ctx = MaxPool3dWithIndexOpMaker.attrs [kd; kh; kw] None None None →
       forallb axis_defined (axes [d; h; w] [kd; kh; kw] [0; 0; 0] [1; 1; 1]) = true →
       InferShape ctx
       = (Ok (), set_output_dims [n; c; d - kd + 1; h - kh + 1; w - kw + 1] ctx)).
Proof.
  intros HOut HMask.
  assert (∀ x k, (x - k + 2 * 0) ÷ 1 + 1 = x - k + 1) as Hlaw.
  { intros x k. rewrite Z.quot_1_r. lia. }
  split.
  - intros h w kh kw HX Hattrs Hdef.
    apply (InferShape_success ctx n c [h; w] [kh; kw] [1; 1] [0; 0]);
      try done; [by left | by rewrite Hattrs |].
    rewrite (output_loop n c [h; w] [kh; kw] [0; 0] [1; 1]) by done.
    cbn. by rewrite !Hlaw.
  - intros d h w kd kh kw HX Hattrs Hdef.
    apply (InferShape_success ctx n c [d; h; w] [kd; kh; kw] [1; 1; 1] [0; 0; 0]);
      try done; [by right | by rewrite Hattrs |].
    rewrite (output_loop n c [d; h; w] [kd; kh; kw] [0; 0; 0] [1; 1; 1]) by done.
    cbn. by rewrite !Hlaw.
Qed.

Lemma Maker_defaults_shape_witness :
  InferShape (forward_ctx [2; 3; 7; 5]
                (MaxPool2dWithIndexOpMaker.attrs [3; 2] None None None))
  = (Ok (),
     set_output_dims [2; 3; 7 - 3 + 1; 5 - 2 + 1]
       (forward_ctx [2; 3; 7; 5]
          (MaxPool2dWithIndexOpMaker.attrs [3; 2] None None None)))
  ∧ InferShape (forward_ctx [2; 3; 6; 7; 5]
                  (MaxPool3dWithIndexOpMaker.attrs [2; 3; 2] None None None))
    = (Ok (),
       set_output_dims [2; 3; 6 - 2 + 1; 7 - 3 + 1; 5 - 2 + 1]
         (forward_ctx [2; 3; 6; 7; 5]
            (MaxPool3dWithIndexOpMaker.attrs [2; 3; 2] None None None))).
Proof.
  split.
  - apply (Maker_defaults_shape
             (forward_ctx [2; 3; 7; 5]
                (MaxPool2dWithIndexOpMaker.attrs [3; 2] None None None)) 2 3);
      try reflexivity; exists []; reflexivity.
  - apply (Maker_defaults_shape
             (forward_ctx [2; 3; 6; 7; 5]
                (MaxPool3dWithIndexOpMaker.attrs [2; 3; 2] None None None)) 2 3);
      try reflexivity; exists []; reflexivity.
Defined.

(** X21. Both operators share one shape inference, and nothing in it tells
    them apart; it is the default strides that tie an operator to its rank.
    An operator made without strides passes shape inference only on a
    rank-4 input if the 2-D maker made it and only on a rank-5 input if the
    3-D maker did, whatever window, globalPooling flag and paddings it was
    given. *)
Theorem Maker_default_strides_fix_rank ctx ctx' ks gp pads :
  InferShape ctx = (Ok (), ctx') →
  (Attrs ctx = MaxPool2dWithIndexOpMaker.attrs ks gp None pads →
   ∃ dims, input_vars ctx !! "X" = Some dims ∧ length dims = 4%nat)
  ∧ (Attrs ctx = MaxPool3dWithIndexOpMaker.attrs ks gp None pads →
     ∃ dims, input_vars ctx !! "X" = Some dims ∧ length dims = 5%nat).
Proof.
  rewrite InferShape_eq.
  destruct (input_vars ctx !! "X") as [dims|]; [|done].
  destruct (output_vars ctx !! "Out"); [|done].
  destruct (output_vars ctx !! "Mask"); [|done].
  destruct (infer_output_shape dims (Attrs ctx)) as [shape| |] eqn:Hshape;
    [|done|done].
  intros _.
  pose proof (infer_output_shape_Ok_lengths _ _ _ Hshape) as (Hs & _ & _).
  apply infer_output_shape_Ok_inv in Hshape
    as (n & c & spatial & outs & -> & Hrank & _ & _).
  cbn [length] in *.
  split; intros Hattrs; rewrite Hattrs in Hs; cbn in Hs;
    eexists; (split; [done|]); cbn [length]; lia.
Qed.

(** The 2-D operator with its default strides and a rank-5 input, and the
    3-D operator with its default strides and a rank-4 input, fail. *)
Example Maker_default_strides_wrong_rank :
  fst (InferShape (forward_ctx [2; 3; 6; 7; 5]
                     (MaxPool2dWithIndexOpMaker.attrs [2; 2; 2] None None
                        (Some [0; 0; 0]))))
  = EnforceNotMet "Strides size and pooling size should be the same."
  ∧ fst (InferShape (forward_ctx [2; 3; 7; 5]
                       (MaxPool3dWithIndexOpMaker.attrs [2; 2] None None
                          (Some [0; 0]))))
    = EnforceNotMet "Strides size and pooling size should be the same.".
Proof. split; reflexivity. Qed.

Lemma Maker_default_strides_fix_rank_witness :
  (∃ dims,
     input_vars (forward_ctx [2; 3; 7; 5]
                   (MaxPool2dWithIndexOpMaker.attrs [3; 2] None None None))
       !! "X" = Some dims
     ∧ length dims = 4%nat)
  ∧ (∃ dims,
       input_vars (forward_ctx [2; 3; 6; 7; 5]
                     (MaxPool3dWithIndexOpMaker.attrs [2; 3; 2] (Some true) None None))
         !! "X" = Some dims
       ∧ length dims = 5%nat).
Proof.
  split.
  - apply (Maker_default_strides_fix_rank
             (forward_ctx [2; 3; 7; 5]
                (MaxPool2dWithIndexOpMaker.attrs [3; 2] None None None))
             (snd (InferShape
                     (forward_ctx [2; 3; 7; 5]
                        (MaxPool2dWithIndexOpMaker.attrs [3; 2] None None None))))
             [3; 2] None None); reflexivity.
  - apply (Maker_default_strides_fix_rank
             (forward_ctx [2; 3; 6; 7; 5]
                (MaxPool3dWithIndexOpMaker.attrs [2; 3; 2] (Some true) None None))
             (snd (InferShape
                     (forward_ctx [2; 3; 6; 7; 5]
                        (MaxPool3dWithIndexOpMaker.attrs [2; 3; 2] (Some true)
                           None None))))
             [2; 3; 2] (Some true) None); reflexivity.
Defined.

(** X22. The references that shape inference checks are the variables that
    the makers declare: on an operator that has every input and output
    declared by its maker, none of the three null-reference errors is raised
    and the dimensions of X are read. *)
Theorem Maker_declares_checked_references ctx :
  ((∀ name, name ∈ MaxPool2dWithIndexOpMaker.inputs →
            is_Some (input_vars ctx !! name))
   ∧ (∀ name, name ∈ MaxPool2dWithIndexOpMaker.outputs →
              is_Some (output_vars ctx !! name)))
  ∨ ((∀ name, name ∈ MaxPool3dWithIndexOpMaker.inputs →
              is_Some (input_vars ctx !! name))
     ∧ (∀ name, name ∈ MaxPool3dWithIndexOpMaker.outputs →
                is_Some (output_vars ctx !! name))) →
  fst (InferShape ctx) ≠ EnforceNotMet "X(Input) of Pooling should not be null."
  ∧ fst (InferShape ctx) ≠ EnforceNotMet "Out(Output) of Pooling should not be null."
  ∧ fst (InferShape ctx) ≠ EnforceNotMet "Mask(Output) of Pooling should not be null."
  ∧ EvGetInputDim "X" ∈ trace (snd (InferShape ctx)).
Proof.
  intros Hdeclared.
  assert (is_Some (input_vars ctx !! "X") ∧ is_Some (output_vars ctx !! "Out")
          ∧ is_Some (output_vars ctx !! "Mask")) as ([dims HX] & HOut & HMask).
  { destruct Hdeclared as [[Hin Hout] | [Hin Hout]];
      (split; [apply Hin; by left
              | split; apply Hout; [by left | by right; left]]). }
  rewrite (InferShape_unfold ctx dims) by done.
  assert (∀ rest, EvGetInputDim "X" ∈ trace ctx ++ EvGetInputDim "X" :: rest)
    as Hread by (intros rest; apply elem_of_app; right; by left).
  destruct (infer_output_shape dims (Attrs ctx)) as [shape|msg|] eqn:Hshape;
    cbn [fst snd set_output_dims log trace].
  - by repeat split.
  - apply infer_output_shape_messages in Hshape as [-> | [-> | [-> | ->]]];
      by repeat split.
  - by repeat split.
Qed.

Lemma Maker_declares_checked_references_witness :
  let ctx := forward_ctx [2; 3; 7; 5]
               (MaxPool2dWithIndexOpMaker.attrs [3; 2] None None None) in
  fst (InferShape ctx) ≠ EnforceNotMet "X(Input) of Pooling should not be null."
  ∧ fst (InferShape ctx) ≠ EnforceNotMet "Out(Output) of Pooling should not be null."
  ∧ fst (InferShape ctx) ≠ EnforceNotMet "Mask(Output) of Pooling should not be null."
  ∧ EvGetInputDim "X" ∈ trace (snd (InferShape ctx)).
Proof.
  intros ctx. apply (Maker_declares_checked_references ctx).
  left. split.
  - intros name Hname. apply list_elem_of_singleton in Hname as ->.
    exists [2; 3; 7; 5]. reflexivity.
  - intros name Hname.
    apply elem_of_cons in Hname as [-> | Hname]; [exists []; reflexivity|].
    apply list_elem_of_singleton in Hname as ->. exists []. reflexivity.
Defined.

End MakerDefaults.
